(** * Gold purity checker: the calculation core of [src/app/page.tsx]

    A shallow embedding of the pure functions of the page component
    ([clamp], [parseKaratLabel], [getBadgeForRange], [computeFinalRange],
    [getDeltaIndicator]), of the reference table [conversionTable] and of the
    click handler [calculatePurity], followed by the properties the
    specification states about them.

    Numbers.  The three fields the handler reads are [<input type="number">]
    elements, whose value is empty or a valid finite number, so
    [Number.parseFloat] returns [NaN] or a finite number.  Two models of a
    JavaScript number are used.

    In the first a finite number is an exact rational ([Q]) and [NaN] is
    [None] of [option Q]; comparisons, [Math.min], [Math.max], [Math.abs]
    and [Math.round] are exact, and so are the four operations: this is the
    arithmetic in which the specification writes its formulas.  Equality of
    numbers is [Qeq] ([==]).

    The second, module [B64], is binary64 arithmetic: a number is [NaN], an
    infinity or a finite rational of the format, and each operation rounds
    its exact result to the nearest value of the format, ties to even, and
    overflows to an infinity.  The functions of the page are embedded a
    second time on these numbers.  The properties that turn on the rounding
    or on the overflow of an operation (the padded bounds of
    [computeFinalRange], the delta of [getDeltaIndicator], the volume and
    the density of [calculatePurity]) are stated on [B64].

    Strings are sequences of bytes and are compared with Leibniz equality;
    [trim], [toUpperCase] and [toLowerCase] act on the ASCII characters, as
    JavaScript does on a string of ASCII characters.

    Effects.  The handler either calls [alert] and returns, or calls
    [setResult]: [calculatePurity] transforms a [PageState] made of the
    stored result and of the alerts shown. *)

From Stdlib Require Import QArith Qround Qabs Qminmax ZArith.
From Stdlib Require Import String Ascii List Bool Lia Lqa DecimalString.
Import ListNotations.

Local Open Scope string_scope.
Local Open Scope Q_scope.

(** ** JavaScript numbers and the [Math] functions the page uses *)

Module Js.

(** [x <= y] and [x < y] as the booleans JavaScript computes. *)
Definition leb (x y : Q) : bool := Qle_bool x y.
Definition ltb (x y : Q) : bool := negb (Qle_bool y x).
Definition geb (x y : Q) : bool := leb y x.
Definition gtb (x y : Q) : bool := ltb y x.

(** [Math.round]: the integer nearest to [x], a tie going to the larger
    one, which is [floor (x + 1/2)]. *)
Definition round (x : Q) : Q := inject_Z (Qfloor (x + (1 # 2))).

Definition min (x y : Q) : Q := Qmin x y.
Definition max (x y : Q) : Q := Qmax x y.
Definition abs (x : Q) : Q := Qabs x.

(** *** Printing *)

Definition digits (n : Z) : string :=
  NilZero.string_of_uint (N.to_uint (Z.to_N n)).

Fixpoint zeros (n : nat) : string :=
  match n with
  | O => ""
  | S k => String "0" (zeros k)
  end.

(** The decimal digits of [n], left-padded with zeros to [f] characters. *)
Definition padded (f : nat) (n : Z) : string :=
  let d := digits n in
  zeros (f - String.length d) ++ d.

(** [Number.prototype.toFixed(f)] for a magnitude below 10^21: the integer
    [n] with [n / 10^f] nearest to [|x|] (the larger [n] on a tie), printed
    with [f] digits after the point, after a minus sign when [x < 0]. *)
Definition toFixed (x : Q) (f : nat) : string :=
  let neg := ltb x 0 in
  let ax := if neg then - x else x in
  let p := (10 ^ Z.of_nat f)%Z in
  let n := Qfloor (ax * inject_Z p + (1 # 2)) in
  let body :=
    match f with
    | O => digits n
    | S _ => digits (n / p) ++ "." ++ padded f (n mod p)
    end in
  if neg then "-" ++ body else body.

(** [Number::toString] on a multiple of one half of small magnitude, the
    only numbers the page interpolates into a template string
    ([roundHalf] returns nothing else): the integer part, then [.5] when
    the number is not an integer. *)
Definition toStringHalf (x : Q) : string :=
  let neg := ltb x 0 in
  let ax := if neg then - x else x in
  let h := Qfloor (ax * 2) in
  let body := digits (h / 2) ++ (if (h mod 2 =? 0)%Z then "" else ".5") in
  if neg then "-" ++ body else body.

(** *** The string methods of [parseKaratLabel], on ASCII text *)

Definition isSpace (c : ascii) : bool :=
  let n := nat_of_ascii c in
  ((9 <=? n) && (n <=? 13) || (n =? 32))%nat.

Fixpoint trimStart (s : string) : string :=
  match s with
  | String c r => if isSpace c then trimStart r else s
  | EmptyString => s
  end.

Fixpoint rev_acc (s acc : string) : string :=
  match s with
  | EmptyString => acc
  | String c r => rev_acc r (String c acc)
  end.

Definition rev (s : string) : string := rev_acc s "".

Definition trim (s : string) : string := rev (trimStart (rev (trimStart s))).

Definition upper (c : ascii) : ascii :=
  let n := nat_of_ascii c in
  if ((97 <=? n) && (n <=? 122))%nat then ascii_of_nat (n - 32) else c.

Fixpoint toUpperCase (s : string) : string :=
  match s with
  | EmptyString => EmptyString
  | String c r => String (upper c) (toUpperCase r)
  end.

Definition isDigit (c : ascii) : bool :=
  let n := nat_of_ascii c in ((48 <=? n) && (n <=? 57))%nat.

(** The longest prefix of digits, and what follows it. *)
Fixpoint spanDigits (s : string) : string * string :=
  match s with
  | String c r =>
      if isDigit c
      then let (d, t) := spanDigits r in (String c d, t)
      else ("", s)
  | EmptyString => ("", "")
  end.

(** The value of a string of decimal digits. *)
Fixpoint digitsValue (acc : Z) (s : string) : Z :=
  match s with
  | EmptyString => acc
  | String c r => digitsValue (10 * acc + Z.of_nat (nat_of_ascii c - 48)) r
  end.

(** [Number(s)] for [s] of the shape [digits] or [digits.digits]. *)
Definition numberOfDecimal (ip : string) (fp : string) : Q :=
  inject_Z (digitsValue 0 ip)
  + inject_Z (digitsValue 0 fp) / inject_Z (10 ^ Z.of_nat (String.length fp)).

End Js.

(** ** The types of the page *)

Record ConversionRow := {
  karat : string;        (* "24K" *)
  percent : Q;           (* 99.9 *)
  minDensity : Q;
  maxDensity : Q
}.

Record BadgeInfo := {
  label : string;
  color : string;
  note : string
}.

Record CalcResult := {
  density : string;
  goldPercent : string;
  karatFromPercent : string;     (* "17.7K" *)
  karatFromDensity : string;     (* "20K" or "?" *)
  karatRangeDensity : string;    (* "16.20 - 16.90 g/cm³" or "" *)
  finalRange : string;           (* "18K–20K" *)
  badgeLabel : string;
  badgeColor : string;
  conclusionText : string;
  deltaKarat : string;           (* "2.3K" *)
  deltaLabel : string;           (* "OK" | "WASPADA" *)
  deltaNote : string
}.

(** ** The helper functions *)

Definition clamp (n min max : Q) : Q := Js.min max (Js.max min n).

(** [karatStr.trim().toUpperCase().match(/^(\d+(\.\d+)?)K$/)], then
    [Number(m[1])]; [None] is [null]. *)
Definition parseKaratLabel (karatStr : string) : option Q :=
  let s := Js.toUpperCase (Js.trim karatStr) in
  let (ip, r) := Js.spanDigits s in
  match ip with
  | EmptyString => None
  | _ =>
      match r with
      | String "K" EmptyString => Some (Js.numberOfDecimal ip "")
      | String "." r' =>
          let (fp, r'') := Js.spanDigits r' in
          match fp, r'' with
          | String _ _, String "K" EmptyString => Some (Js.numberOfDecimal ip fp)
          | _, _ => None
          end
      | _ => None
      end
  end.

Definition getBadgeForRange (minK maxK : Q) : BadgeInfo :=
  let avg := (minK + maxK) / 2 in
  if Js.geb avg 22 then
    {| label := "Sangat Tinggi";
       color := "bg-emerald-600 text-white";
       note := "Mendekati emas murni (umumnya 22K+)." |}
  else if Js.geb avg 18 then
    {| label := "Tinggi";
       color := "bg-green-600 text-white";
       note := "Kadar tinggi (umumnya 18K–21K)." |}
  else if Js.geb avg 14 then
    {| label := "Menengah";
       color := "bg-amber-500 text-white";
       note := "Kadar menengah (umumnya 14K–17K)." |}
  else if Js.geb avg 10 then
    {| label := "Rendah";
       color := "bg-orange-600 text-white";
       note := "Kadar rendah (umumnya 10K–13K)." |}
  else
    {| label := "Sangat Rendah";
       color := "bg-red-600 text-white";
       note := "Kadar sangat rendah (di bawah 10K)." |}.

(** What [computeFinalRange] returns: [{ minK, maxK, label }]. *)
Record FinalRange := {
  minK : Q;
  maxK : Q;
  rangeLabel : string
}.

Definition roundHalf (x : Q) : Q := Js.round (x * 2) / 2.

Definition computeFinalRange (karatFromPercent : Q) (karatFromDensity : option Q)
  : FinalRange :=
  let pMin := clamp (karatFromPercent - 1) 0 24 in
  let pMax := clamp (karatFromPercent + 1) 0 24 in
  let minK := pMin in
  let maxK := pMax in
  let (minK, maxK) :=
    match karatFromDensity with
    | Some kd =>
        let dMin := clamp (kd - 1) 0 24 in
        let dMax := clamp (kd + 1) 0 24 in
        (Js.min minK dMin, Js.max maxK dMax)
    | None => (minK, maxK)
    end in
  let minK := roundHalf minK in
  let maxK := roundHalf maxK in
  let (minK, maxK) := if Js.gtb minK maxK then (maxK, minK) else (minK, maxK) in
  {| minK := minK; maxK := maxK;
     rangeLabel := Js.toStringHalf minK ++ "K–" ++ Js.toStringHalf maxK ++ "K" |}.

(** What [getDeltaIndicator] returns: [{ delta, label, note }]. *)
Record DeltaIndicator := {
  delta : string;
  dLabel : string;
  dNote : string
}.

(** The local [deltaRounded] of [getDeltaIndicator]. *)
Definition deltaRounded (karatFromPercent karatFromDensity : Q) : Q :=
  let delta := Js.abs (karatFromPercent - karatFromDensity) in
  Js.round (delta * 10) / 10.

Definition getDeltaIndicator (karatFromPercent : Q) (karatFromDensity : option Q)
  : DeltaIndicator :=
  match karatFromDensity with
  | None =>
      {| delta := "";
         dLabel := "OK";
         dNote := "Tidak ada pembanding densitas (di luar range tabel)." |}
  | Some kd =>
      let deltaRounded := deltaRounded karatFromPercent kd in
      if Js.geb deltaRounded 2.0 then
        {| delta := Js.toFixed deltaRounded 1 ++ "K";
           dLabel := "WASPADA";
           dNote := "Selisih besar. Bisa dipengaruhi batu permata, solder, rongga/berlubang, gelembung air, atau teknik penimbangan." |}
      else
        {| delta := Js.toFixed deltaRounded 1 ++ "K";
           dLabel := "OK";
           dNote := "Selisih kecil. Hasil cenderung konsisten untuk screening cepat." |}
  end.

(** ** The reference table: 24K down to 6K *)

Definition conversionTable : list ConversionRow :=
  [ {| karat := "24K"; percent := 99.9; minDensity := 19.20; maxDensity := 19.32 |};
    {| karat := "23K"; percent := 95.8; minDensity := 18.60; maxDensity := 19.20 |};
    {| karat := "22K"; percent := 91.7; minDensity := 17.70; maxDensity := 18.60 |};
    {| karat := "21K"; percent := 87.5; minDensity := 16.90; maxDensity := 17.70 |};
    {| karat := "20K"; percent := 83.3; minDensity := 16.20; maxDensity := 16.90 |};
    {| karat := "19K"; percent := 79.2; minDensity := 15.60; maxDensity := 16.20 |};
    {| karat := "18K"; percent := 75.0; minDensity := 15.20; maxDensity := 15.60 |};
    {| karat := "17K"; percent := 70.8; minDensity := 14.70; maxDensity := 15.20 |};
    {| karat := "16K"; percent := 66.7; minDensity := 14.20; maxDensity := 14.70 |};
    {| karat := "15K"; percent := 62.5; minDensity := 13.70; maxDensity := 14.20 |};
    {| karat := "14K"; percent := 58.3; minDensity := 13.00; maxDensity := 13.70 |};
    {| karat := "13K"; percent := 54.2; minDensity := 12.60; maxDensity := 13.00 |};
    {| karat := "12K"; percent := 50.0; minDensity := 12.00; maxDensity := 12.60 |};
    {| karat := "11K"; percent := 45.8; minDensity := 11.60; maxDensity := 12.00 |};
    {| karat := "10K"; percent := 41.7; minDensity := 11.30; maxDensity := 11.60 |};
    {| karat := "9K"; percent := 37.5; minDensity := 10.90; maxDensity := 11.30 |};
    {| karat := "8K"; percent := 33.3; minDensity := 10.50; maxDensity := 10.90 |};
    {| karat := "7K"; percent := 29.2; minDensity := 10.10; maxDensity := 10.50 |};
    {| karat := "6K"; percent := 25.0; minDensity := 9.70; maxDensity := 10.10 |} ].

(** ** The click handler [calculatePurity] *)

(** The handler either shows an [alert] and returns, or reaches [setResult]. *)
Inductive outcome (A : Type) : Type :=
| Alert (msg : string)
| Done (a : A).
Arguments Alert {A} msg.
Arguments Done {A} a.

Definition alertInvalidNumber : string :=
  "Masukkan angka yang valid untuk berat di udara dan berat di air.".
Definition alertAirNotAboveWater : string :=
  "Masukkan nilai yang valid. Berat di udara harus lebih besar dari berat di air.".
Definition alertVolume : string :=
  "Perhitungan gagal: volume <= 0. Cek ulang input & teknik penimbangan.".

(** The condition of the table loop: [density >= row.minDensity &&
    density <= row.maxDensity]. *)
Definition inBand (density : Q) (row : ConversionRow) : bool :=
  Js.geb density (minDensity row) && Js.leb density (maxDensity row).

(** The [for ... of] loop with its [break]: the first row of [rows], in
    order, whose band holds [density]. *)
Fixpoint lookupRow (density : Q) (rows : list ConversionRow)
  : option ConversionRow :=
  match rows with
  | [] => None
  | row :: rest => if inBand density row then Some row else lookupRow density rest
  end.

(** The water density of the temperature correction; [temp] is [None] when
    [Number.parseFloat(waterTemp)] is [NaN]. *)
Definition waterDensityAt (temp : option Q) : Q :=
  match temp with
  | Some t =>
      if Js.ltb t 10 then 0.9997
      else if Js.gtb t 30 then 0.9957
      else 1.0
  | None => 1.0
  end.

(** The [const] and [let] bindings of the handler's body, in order. *)
Module Locals.
Record t := {
  volume : Q;
  density : Q;
  goldPercent : Q;
  karatFromPercentNum : Q;
  karatFromDensity : string;
  karatRangeDensity : string;
  karatFromDensityNum : option Q;
  final : FinalRange;
  badge : BadgeInfo;
  delta : DeltaIndicator
}.
End Locals.

(** The body of [calculatePurity] up to [setResult].  [air], [water] and
    [temp] are what [Number.parseFloat] returned for the three text fields. *)
Definition calculatePurity_locals (air water temp : option Q) : outcome Locals.t :=
  match air, water with
  | Some air, Some water =>
      if Js.leb air 0 || Js.leb water 0 then Alert alertInvalidNumber
      else if Js.leb air water then Alert alertAirNotAboveWater
      else
        let waterDensity := waterDensityAt temp in
        let volume := (air - water) / waterDensity in
        if Js.leb volume 0 then Alert alertVolume
        else
          let density := air / volume in
          let minD := 9.7 in
          let maxD := 19.32 in
          let goldPercent := clamp (((density - minD) / (maxD - minD)) * 100) 0 100 in
          let karatFromPercentNum := (goldPercent * 24) / 100 in
          let found := lookupRow density conversionTable in
          let karatFromDensity :=
            match found with Some row => karat row | None => "?" end in
          let karatRangeDensity :=
            match found with
            | Some row =>
                Js.toFixed (minDensity row) 2 ++ " - "
                ++ Js.toFixed (maxDensity row) 2 ++ " g/cm³"
            | None => ""
            end in
          let karatFromDensityNum := parseKaratLabel karatFromDensity in
          let final := computeFinalRange karatFromPercentNum karatFromDensityNum in
          let badge := getBadgeForRange (minK final) (maxK final) in
          let delta := getDeltaIndicator karatFromPercentNum karatFromDensityNum in
          Done {| Locals.volume := volume;
                  Locals.density := density;
                  Locals.goldPercent := goldPercent;
                  Locals.karatFromPercentNum := karatFromPercentNum;
                  Locals.karatFromDensity := karatFromDensity;
                  Locals.karatRangeDensity := karatRangeDensity;
                  Locals.karatFromDensityNum := karatFromDensityNum;
                  Locals.final := final;
                  Locals.badge := badge;
                  Locals.delta := delta |}
  | _, _ => Alert alertInvalidNumber
  end.

(** The record passed to [setResult]. *)
Definition resultOf (l : Locals.t) : CalcResult :=
  let final := Locals.final l in
  let badge := Locals.badge l in
  let indicator := Locals.delta l in
  {| density := Js.toFixed (Locals.density l) 2;
     goldPercent := Js.toFixed (Locals.goldPercent l) 1;
     karatFromPercent := Js.toFixed (Locals.karatFromPercentNum l) 1 ++ "K";
     karatFromDensity := Locals.karatFromDensity l;
     karatRangeDensity := Locals.karatRangeDensity l;
     finalRange := rangeLabel final;
     badgeLabel := label badge;
     badgeColor := color badge;
     conclusionText :=
       "Kesimpulan: perkiraan kadar emas berada di kisaran " ++ rangeLabel final
       ++ " (" ++ label badge ++ "). " ++ note badge;
     deltaKarat := delta indicator;
     deltaLabel := dLabel indicator;
     deltaNote := dNote indicator |}.

(** The component state the handler writes ([result]) and the alerts it has
    shown, latest first. *)
Record PageState := {
  result : option CalcResult;
  alerts : list string
}.

Definition calculatePurity (air water temp : option Q) (st : PageState) : PageState :=
  match calculatePurity_locals air water temp with
  | Alert msg => {| result := result st; alerts := msg :: alerts st |}
  | Done l => {| result := Some (resultOf l); alerts := alerts st |}
  end.

(** The names the specification gives to the handler's failures. *)
Definition InvalidInputError (msg : string) : Prop :=
  msg = alertInvalidNumber \/ msg = alertAirNotAboveWater.
Definition InvalidVolumeError (msg : string) : Prop :=
  msg = alertVolume.

Definition initialState : PageState := {| result := None; alerts := [] |}.

(** ** Invariants of a table of density bands *)

(** The number a row's label stands for, as [calculatePurity] obtains it. *)
Definition karatNum (row : ConversionRow) : option Q :=
  parseKaratLabel (karat row).


(** [lower] has a readable label that is at most the one of [upper]. *)
Definition karatLeb (lower upper : ConversionRow) : bool :=
  match karatNum lower, karatNum upper with
  | Some k', Some k => Js.leb k' k
  | _, _ => false
  end.

(** Every row lies, in density and in karat, at or below the rows before it. *)
Fixpoint descendingb (rows : list ConversionRow) : bool :=
  match rows with
  | [] => true
  | r :: rest =>
      forallb (fun r' => Js.leb (maxDensity r') (minDensity r) && karatLeb r' r) rest
      && descendingb rest
  end.


(** A row's label reads as a whole number of karats between 6 and 24, and its
    band lies between the extreme densities 9.70 and 19.32. *)
Definition rowInRange (r : ConversionRow) : bool :=
  match karatNum r with
  | Some q => Js.leb 6 q && Js.leb q 24 && Qeq_bool q (inject_Z (Qfloor q))
  | None => false
  end
  && Js.leb 9.70 (minDensity r) && Js.leb (maxDensity r) 19.32.

(** What the bindings hold when the handler reaches [setResult]. *)
Record Computed (a w : Q) (temp : option Q) (l : Locals.t) : Prop := {
  c_volume : Locals.volume l = (a - w) / waterDensityAt temp;
  c_density : Locals.density l = a / Locals.volume l;
  c_goldPercent :
    Locals.goldPercent l
    = clamp (((Locals.density l - 9.7) / (19.32 - 9.7)) * 100) 0 100;
  c_karatFromPercentNum :
    Locals.karatFromPercentNum l = (Locals.goldPercent l * 24) / 100;
  c_karatFromDensity :
    Locals.karatFromDensity l
    = match lookupRow (Locals.density l) conversionTable with
      | Some row => karat row
      | None => "?"
      end;
  c_karatRangeDensity :
    Locals.karatRangeDensity l
    = match lookupRow (Locals.density l) conversionTable with
      | Some row =>
          Js.toFixed (minDensity row) 2 ++ " - "
          ++ Js.toFixed (maxDensity row) 2 ++ " g/cm³"
      | None => ""
      end;
  c_karatFromDensityNum :
    Locals.karatFromDensityNum l = parseKaratLabel (Locals.karatFromDensity l);
  c_final :
    Locals.final l
    = computeFinalRange (Locals.karatFromPercentNum l) (Locals.karatFromDensityNum l);
  c_badge :
    Locals.badge l
    = getBadgeForRange (minK (Locals.final l)) (maxK (Locals.final l));
  c_delta :
    Locals.delta l
    = getDeltaIndicator (Locals.karatFromPercentNum l) (Locals.karatFromDensityNum l)
}.

(** ** The specification's words, where a claim compares them with the code *)

Module Spec.

(** A value clamped to [lo, hi]: the bound it passes, else itself. *)
Definition clampTo (lo hi x : Q) : Q :=
  if Qlt_le_dec x lo then lo
  else if Qlt_le_dec hi x then hi
  else x.

(** The interval [k - 1, k + 1] with each bound clamped to [0, 24]. *)
Definition padded (k : Q) : Q * Q :=
  (clampTo 0 24 (k - 1), clampTo 0 24 (k + 1)).

(** The union of the padded intervals of the estimates that are present. *)
Definition merged (karatFromPercent : Q) (karatFromDensity : option Q) : Q * Q :=
  match karatFromDensity with
  | None => padded karatFromPercent
  | Some kd =>
      (Qmin (fst (padded karatFromPercent)) (fst (padded kd)),
       Qmax (snd (padded karatFromPercent)) (snd (padded kd)))
  end.

(** [n] is [v] rounded half up: the nearest integer, the upper on a tie. *)
Definition roundedHalfUp (v : Q) (n : Z) : Prop :=
  v - (1 # 2) < inject_Z n /\ inject_Z n <= v + (1 # 2).

(** [r] is [x] rounded to the nearest 0.5: [x * 2] rounded half up, over 2. *)
Definition nearestHalf (x r : Q) : Prop :=
  exists n : Z, roundedHalfUp (x * 2) n /\ r == inject_Z n / 2.

(** The inputs the specification calls invalid. *)
Definition invalidInput (airWeight waterWeight : option Q) : Prop :=
  airWeight = None \/ waterWeight = None
  \/ (exists a, airWeight = Some a /\ a <= 0)
  \/ (exists w, waterWeight = Some w /\ w <= 0)
  \/ (exists a w, airWeight = Some a /\ waterWeight = Some w /\ a <= w).

End Spec.

(** ** The search box over the table *)

Module JsText.

Definition lower (c : ascii) : ascii :=
  let n := nat_of_ascii c in
  if ((65 <=? n) && (n <=? 90))%nat then ascii_of_nat (n + 32) else c.

(** [String.prototype.toLowerCase], on ASCII text. *)
Fixpoint toLowerCase (s : string) : string :=
  match s with
  | EmptyString => EmptyString
  | String c r => String (lower c) (toLowerCase r)
  end.

(** [q] is a prefix of [s]. *)
Fixpoint startsWith (s q : string) : bool :=
  match q, s with
  | EmptyString, _ => true
  | String _ _, EmptyString => false
  | String a q', String b s' => Ascii.eqb a b && startsWith s' q'
  end.

(** [String.prototype.includes]: [q] occurs in [s]. *)
Fixpoint includes (s q : string) : bool :=
  startsWith s q
  || match s with
     | EmptyString => false
     | String _ r => includes r q
     end.

(** [Number::toString] on a number with at most two decimals, as every
    number of the table is: the integer part, then the decimals that are
    not trailing zeros. *)
Definition numberToString (x : Q) : string :=
  let neg := Js.ltb x 0 in
  let ax := if neg then - x else x in
  let n := Qfloor (ax * 100) in
  let fp := (n mod 100)%Z in
  let frac :=
    if (fp =? 0)%Z then ""
    else if (fp mod 10 =? 0)%Z then "." ++ Js.digits (fp / 10)
    else "." ++ Js.padded 2 fp in
  let body := Js.digits (n / 100) ++ frac in
  if neg then "-" ++ body else body.

Definition isEmpty (s : string) : bool :=
  match s with
  | EmptyString => true
  | String _ _ => false
  end.

(** A string of ASCII white space only. *)
Fixpoint blank (s : string) : bool :=
  match s with
  | EmptyString => true
  | String c r => Js.isSpace c && blank r
  end.

(** A string of ASCII characters only: every byte is below 128. *)
Fixpoint isAscii (s : string) : bool :=
  match s with
  | EmptyString => true
  | String c r => (nat_of_ascii c <? 128)%nat && isAscii r
  end.

(** A function applied to every character. *)
Fixpoint mapChars (f : ascii -> ascii) (s : string) : string :=
  match s with
  | EmptyString => EmptyString
  | String c r => String (f c) (mapChars f r)
  end.

End JsText.

(** The predicate of the [filter] of [filteredTable]. *)
Definition rowMatches (q : string) (item : ConversionRow) : bool :=
  JsText.includes (JsText.toLowerCase (karat item)) q
  || JsText.includes (JsText.numberToString (percent item)) q
  || JsText.includes
       (JsText.numberToString (minDensity item) ++ " "
        ++ JsText.numberToString (maxDensity item)) q.

(** [filteredTable], the rows the table shows for a search term. *)
Definition filteredTable (searchTerm : string) : list ConversionRow :=
  let q := JsText.toLowerCase (Js.trim searchTerm) in
  if JsText.isEmpty q then conversionTable
  else filter (rowMatches q) conversionTable.





(** The percent of a row is its karat over 24, as a percentage, to one
    decimal; the row of 24K carries 99.9. *)
Definition percentFollowsKarat (r : ConversionRow) : bool :=
  match karatNum r with
  | Some k =>
      if Qeq_bool k 24 then Qeq_bool (percent r) 99.9
      else Js.leb (Qabs (percent r - k / 24 * 100)) 0.05
  | None => false
  end.

(** ** Binary64 numbers *)

Module B64.

(** A JavaScript number: [NaN], an infinity, or a finite value, held as the
    rational it denotes.  The sign of zero is not modelled: no operation of
    the page divides by a zero, and a zero prints the same with either
    sign. *)
Inductive num : Type :=
| NaN
| Inf (negative : bool)
| Fin (q : Q).

(** The finite values are the multiples of 2^-1074 with at most 53
    significant bits; [scale] turns a value into units of 2^-1074. *)
Definition scale : Z := 2 ^ 1074.

(** The nearest integer, a tie going to the even one. *)
Definition rne (z : Q) : Z :=
  let n := Qfloor z in
  match Qcompare (z - inject_Z n) (1 # 2) with
  | Lt => n
  | Gt => (n + 1)%Z
  | Eq => if Z.even n then n else (n + 1)%Z
  end.

(** The number of low bits a magnitude of [a] units has to drop to fit 53
    bits. *)
Definition shift (a : Q) : Z := Z.max 0 (Z.log2 (Qfloor a) - 52).

(** The magnitude [a], in units, rounded to 53 bits, ties to even. *)
Definition roundUnits (a : Q) : Z :=
  let s := shift a in
  (rne (a / inject_Z (2 ^ s)) * 2 ^ s)%Z.

(** Rounding to the nearest value of the format, ties to even; values
    below 2^-1022 in magnitude keep the unit 2^-1074, as subnormal numbers
    do, and the overflow is left to [ofQ]. *)
Definition rnd (x : Q) : Q :=
  let m := roundUnits (Qabs x * inject_Z scale) in
  Qred (inject_Z (if Qle_bool 0 x then m else - m) / inject_Z scale).

(** [x] is a value of the format. *)
Definition rep (x : Q) : Prop := rnd x == x.

Definition huge : Q := inject_Z (2 ^ 1024).

(** The number an exact result becomes: rounded, and an infinity when the
    rounded magnitude reaches 2^1024. *)
Definition ofQ (x : Q) : num :=
  let r := rnd x in
  if Qle_bool huge (Qabs r) then Inf (negb (Qle_bool 0 x)) else Fin r.

(** A finite number of the format. *)
Definition finite (x : Q) : Prop := rep x /\ Qabs x < huge.

Definition isNaN (x : num) : bool :=
  match x with NaN => true | _ => false end.

Definition neg (x : num) : num :=
  match x with
  | NaN => NaN
  | Inf s => Inf (negb s)
  | Fin q => Fin (- q)
  end.

Definition isZero (q : Q) : bool := Qeq_bool q 0.

Definition add (x y : num) : num :=
  match x, y with
  | NaN, _ | _, NaN => NaN
  | Inf s, Inf t => if Bool.eqb s t then Inf s else NaN
  | Inf s, Fin _ => Inf s
  | Fin _, Inf t => Inf t
  | Fin a, Fin b => ofQ (a + b)
  end.

Definition sub (x y : num) : num := add x (neg y).

Definition mul (x y : num) : num :=
  match x, y with
  | NaN, _ | _, NaN => NaN
  | Inf s, Inf t => Inf (xorb s t)
  | Inf s, Fin b =>
      if isZero b then NaN else Inf (xorb s (negb (Qle_bool 0 b)))
  | Fin a, Inf t =>
      if isZero a then NaN else Inf (xorb (negb (Qle_bool 0 a)) t)
  | Fin a, Fin b => ofQ (a * b)
  end.

Definition div (x y : num) : num :=
  match x, y with
  | NaN, _ | _, NaN => NaN
  | Inf _, Inf _ => NaN
  | Inf s, Fin b => Inf (xorb s (negb (Qle_bool 0 b)))
  | Fin _, Inf _ => Fin 0
  | Fin a, Fin b =>
      if isZero b
      then if isZero a then NaN else Inf (negb (Qle_bool 0 a))
      else ofQ (a / b)
  end.

(** [x <= y] and [x < y]; a comparison with [NaN] is false. *)
Definition leb (x y : num) : bool :=
  match x, y with
  | NaN, _ | _, NaN => false
  | Inf true, _ => true
  | _, Inf false => true
  | Inf false, _ => false
  | _, Inf true => false
  | Fin a, Fin b => Qle_bool a b
  end.

Definition ltb (x y : num) : bool :=
  match x, y with
  | NaN, _ | _, NaN => false
  | Inf true, Inf true => false
  | Inf true, _ => true
  | Inf false, _ => false
  | Fin _, Inf t => negb t
  | Fin a, Fin b => negb (Qle_bool b a)
  end.

Definition geb (x y : num) : bool := leb y x.
Definition gtb (x y : num) : bool := ltb y x.

(** [Math.max] and [Math.min]: [NaN] when an argument is [NaN]. *)
Definition max (x y : num) : num :=
  if isNaN x || isNaN y then NaN else if ltb x y then y else x.

Definition min (x y : num) : num :=
  if isNaN x || isNaN y then NaN else if ltb y x then y else x.

Definition abs (x : num) : num :=
  match x with
  | NaN => NaN
  | Inf _ => Inf false
  | Fin q => Fin (Qabs q)
  end.

(** [Math.round]: the nearest integer, a tie going up; exact, since the
    integer next to a value of the format is a value of the format. *)
Definition round (x : num) : num :=
  match x with
  | Fin q => Fin (inject_Z (Qfloor (q + (1 # 2))))
  | _ => x
  end.

(** A numeric literal of the source: the decimal rounded to the format. *)
Definition lit (q : Q) : num := ofQ q.

(** [toFixed], which prints the exact value of a finite number below
    10^21. *)
Definition toFixed (x : num) (f : nat) : string :=
  match x with
  | NaN => "NaN"
  | Inf s => if s then "-Infinity" else "Infinity"
  | Fin q => Js.toFixed q f
  end.

(** A number in a template string, for the multiples of one half. *)
Definition toStringHalf (x : num) : string :=
  match x with
  | NaN => "NaN"
  | Inf s => if s then "-Infinity" else "Infinity"
  | Fin q => Js.toStringHalf q
  end.

(** *** The functions of the page on binary64 numbers *)

Definition clamp (n lo hi : num) : num := min hi (max lo n).

Definition parseKaratLabel (karatStr : string) : option num :=
  option_map ofQ (parseKaratLabel karatStr).

Definition getBadgeForRange (minK maxK : num) : BadgeInfo :=
  let avg := div (add minK maxK) (lit 2) in
  if geb avg (lit 22) then
    {| label := "Sangat Tinggi";
       color := "bg-emerald-600 text-white";
       note := "Mendekati emas murni (umumnya 22K+)." |}
  else if geb avg (lit 18) then
    {| label := "Tinggi";
       color := "bg-green-600 text-white";
       note := "Kadar tinggi (umumnya 18K–21K)." |}
  else if geb avg (lit 14) then
    {| label := "Menengah";
       color := "bg-amber-500 text-white";
       note := "Kadar menengah (umumnya 14K–17K)." |}
  else if geb avg (lit 10) then
    {| label := "Rendah";
       color := "bg-orange-600 text-white";
       note := "Kadar rendah (umumnya 10K–13K)." |}
  else
    {| label := "Sangat Rendah";
       color := "bg-red-600 text-white";
       note := "Kadar sangat rendah (di bawah 10K)." |}.

Record FinalRange := {
  minK : num;
  maxK : num;
  rangeLabel : string
}.

Definition roundHalf (x : num) : num := div (round (mul x (lit 2))) (lit 2).

Definition computeFinalRange (karatFromPercent : num) (karatFromDensity : option num)
  : FinalRange :=
  let pMin := clamp (sub karatFromPercent (lit 1)) (lit 0) (lit 24) in
  let pMax := clamp (add karatFromPercent (lit 1)) (lit 0) (lit 24) in
  let minK := pMin in
  let maxK := pMax in
  let (minK, maxK) :=
    match karatFromDensity with
    | Some kd =>
        let dMin := clamp (sub kd (lit 1)) (lit 0) (lit 24) in
        let dMax := clamp (add kd (lit 1)) (lit 0) (lit 24) in
        (min minK dMin, max maxK dMax)
    | None => (minK, maxK)
    end in
  let minK := roundHalf minK in
  let maxK := roundHalf maxK in
  let (minK, maxK) := if gtb minK maxK then (maxK, minK) else (minK, maxK) in
  {| minK := minK; maxK := maxK;
     rangeLabel := toStringHalf minK ++ "K–" ++ toStringHalf maxK ++ "K" |}.

Definition deltaRounded (karatFromPercent karatFromDensity : num) : num :=
  let delta := abs (sub karatFromPercent karatFromDensity) in
  div (round (mul delta (lit 10))) (lit 10).

Definition getDeltaIndicator (karatFromPercent : num) (karatFromDensity : option num)
  : DeltaIndicator :=
  match karatFromDensity with
  | None =>
      {| delta := "";
         dLabel := "OK";
         dNote := "Tidak ada pembanding densitas (di luar range tabel)." |}
  | Some kd =>
      let deltaRounded := deltaRounded karatFromPercent kd in
      if geb deltaRounded (lit 2.0) then
        {| delta := toFixed deltaRounded 1 ++ "K";
           dLabel := "WASPADA";
           dNote := "Selisih besar. Bisa dipengaruhi batu permata, solder, rongga/berlubang, gelembung air, atau teknik penimbangan." |}
      else
        {| delta := toFixed deltaRounded 1 ++ "K";
           dLabel := "OK";
           dNote := "Selisih kecil. Hasil cenderung konsisten untuk screening cepat." |}
  end.

Definition inBand (density : num) (row : ConversionRow) : bool :=
  geb density (lit (minDensity row)) && leb density (lit (maxDensity row)).

Fixpoint lookupRow (density : num) (rows : list ConversionRow)
  : option ConversionRow :=
  match rows with
  | [] => None
  | row :: rest => if inBand density row then Some row else lookupRow density rest
  end.

Definition waterDensityAt (temp : num) : num :=
  if negb (isNaN temp) then
    if ltb temp (lit 10) then lit 0.9997
    else if gtb temp (lit 30) then lit 0.9957
    else lit 1.0
  else lit 1.0.

Module Locals.
Record t := {
  volume : num;
  density : num;
  goldPercent : num;
  karatFromPercentNum : num;
  karatFromDensity : string;
  karatRangeDensity : string;
  karatFromDensityNum : option num;
  final : FinalRange;
  badge : BadgeInfo;
  delta : DeltaIndicator
}.
End Locals.

Definition calculatePurity_locals (air water temp : num) : outcome Locals.t :=
  if isNaN air || isNaN water || leb air (lit 0) || leb water (lit 0)
  then Alert alertInvalidNumber
  else if leb air water then Alert alertAirNotAboveWater
  else
    let waterDensity := waterDensityAt temp in
    let volume := div (sub air water) waterDensity in
    if leb volume (lit 0) then Alert alertVolume
    else
      let density := div air volume in
      let minD := lit 9.7 in
      let maxD := lit 19.32 in
      let goldPercent :=
        clamp (mul (div (sub density minD) (sub maxD minD)) (lit 100))
              (lit 0) (lit 100) in
      let karatFromPercentNum := div (mul goldPercent (lit 24)) (lit 100) in
      let found := lookupRow density conversionTable in
      let karatFromDensity :=
        match found with Some row => karat row | None => "?" end in
      let karatRangeDensity :=
        match found with
        | Some row =>
            toFixed (lit (minDensity row)) 2 ++ " - "
            ++ toFixed (lit (maxDensity row)) 2 ++ " g/cm³"
        | None => ""
        end in
      let karatFromDensityNum := parseKaratLabel karatFromDensity in
      let final := computeFinalRange karatFromPercentNum karatFromDensityNum in
      let badge := getBadgeForRange (minK final) (maxK final) in
      let delta := getDeltaIndicator karatFromPercentNum karatFromDensityNum in
      Done {| Locals.volume := volume;
              Locals.density := density;
              Locals.goldPercent := goldPercent;
              Locals.karatFromPercentNum := karatFromPercentNum;
              Locals.karatFromDensity := karatFromDensity;
              Locals.karatRangeDensity := karatRangeDensity;
              Locals.karatFromDensityNum := karatFromDensityNum;
              Locals.final := final;
              Locals.badge := badge;
              Locals.delta := delta |}.

Definition resultOf (l : Locals.t) : CalcResult :=
  let final := Locals.final l in
  let badge := Locals.badge l in
  let indicator := Locals.delta l in
  {| density := toFixed (Locals.density l) 2;
     goldPercent := toFixed (Locals.goldPercent l) 1;
     karatFromPercent := toFixed (Locals.karatFromPercentNum l) 1 ++ "K";
     karatFromDensity := Locals.karatFromDensity l;
     karatRangeDensity := Locals.karatRangeDensity l;
     finalRange := rangeLabel final;
     badgeLabel := label badge;
     badgeColor := color badge;
     conclusionText :=
       "Kesimpulan: perkiraan kadar emas berada di kisaran " ++ rangeLabel final
       ++ " (" ++ label badge ++ "). " ++ note badge;
     deltaKarat := delta indicator;
     deltaLabel := dLabel indicator;
     deltaNote := dNote indicator |}.

Definition calculatePurity (air water temp : num) (st : PageState) : PageState :=
  match calculatePurity_locals air water temp with
  | Alert msg => {| result := result st; alerts := msg :: alerts st |}
  | Done l => {| result := Some (resultOf l); alerts := alerts st |}
  end.

End B64.


(** The specification's reconciler with the two sums rounded as binary64
    rounds them. *)
Module Spec64.

Definition padded (k : Q) : Q * Q :=
  (Spec.clampTo 0 24 (B64.rnd (k - 1)), Spec.clampTo 0 24 (B64.rnd (k + 1))).

Definition merged (karatFromPercent : Q) (karatFromDensity : option Q) : Q * Q :=
  match karatFromDensity with
  | None => padded karatFromPercent
  | Some kd =>
      (Qmin (fst (padded karatFromPercent)) (fst (padded kd)),
       Qmax (snd (padded karatFromPercent)) (snd (padded kd)))
  end.

End Spec64.

(** Inputs at which binary64 and exact arithmetic part. *)
Module Inputs.

(** The binary64 number 2^-50 below 7.25. *)
Definition belowQuarter : Q := 7.25 - 1 / inject_Z (2 ^ 50).

End Inputs.

(** ** Running the embedding *)

Example clamp_examples :
  clamp (-3) 0 24 == 0 /\ clamp 30 0 24 == 24 /\ clamp 12.5 0 24 == 12.5.
Proof. repeat split. Qed.

Example roundHalf_examples :
  roundHalf 12.2 == 12 /\ roundHalf 12.25 == 12.5 /\ roundHalf 12.74 == 12.5
  /\ roundHalf 12.75 == 13.
Proof. repeat split. Qed.

Example toFixed_examples :
  Js.toFixed 15 2 = "15.00" /\ Js.toFixed 0.05 1 = "0.1"
  /\ Js.toFixed 3.78 1 = "3.8" /\ Js.toFixed 9.7 2 = "9.70".
Proof. repeat split. Qed.

Example parseKaratLabel_examples :
  parseKaratLabel "20K" = Some 20
  /\ parseKaratLabel " 9k " = Some 9
  /\ parseKaratLabel "20.5K" = Some 20.5
  /\ parseKaratLabel "?" = None
  /\ parseKaratLabel "K" = None
  /\ parseKaratLabel "20" = None
  /\ parseKaratLabel "20.K" = None
  /\ parseKaratLabel "20Kt" = None.
Proof. vm_compute. repeat split. Qed.

(** Five grams in air and four in water: density 5.00 is below the table, so
    there is no density estimate and the range is the percent one. *)
Example scenario_5_in_air_4_in_water :
  result (calculatePurity (Some 5) (Some 4) None initialState)
  = Some {| density := "5.00";
            goldPercent := "0.0";
            karatFromPercent := "0.0K";
            karatFromDensity := "?";
            karatRangeDensity := "";
            finalRange := "0K–1K";
            badgeLabel := "Sangat Rendah";
            badgeColor := "bg-red-600 text-white";
            conclusionText :=
              "Kesimpulan: perkiraan kadar emas berada di kisaran 0K–1K (Sangat Rendah). Kadar sangat rendah (di bawah 10K).";
            deltaKarat := "";
            deltaLabel := "OK";
            deltaNote := "Tidak ada pembanding densitas (di luar range tabel)." |}.
Proof. vm_compute. reflexivity. Qed.

Example empty_field_alert :
  alerts (calculatePurity (Some 2) None (Some 20) initialState)
  = [alertInvalidNumber].
Proof. reflexivity. Qed.

(** ** Arithmetic of the model *)

(** Division by a literal becomes a product by its inverse, which linear
    arithmetic accepts. *)
Ltac const_div :=
  unfold Qdiv in *;
  repeat match goal with
    | |- context [ / ?c ] =>
        let v := eval vm_compute in (/ c) in change (/ c) with v
    | H : context [ / ?c ] |- _ =>
        let v := eval vm_compute in (/ c) in change (/ c) with v in H
    end.

Ltac input_alert :=
  eexists; split; [reflexivity|]; first [left; reflexivity|right; reflexivity].

Lemma leb_le (x y : Q) : Js.leb x y = true <-> x <= y.
Proof. unfold Js.leb. apply Qle_bool_iff. Qed.

Lemma leb_gt (x y : Q) : Js.leb x y = false <-> y < x.
Proof.
  unfold Js.leb. split; intro H.
  - apply Qnot_le_lt. intro L. apply Qle_bool_iff in L. congruence.
  - destruct (Qle_bool x y) eqn:E; [|reflexivity].
    apply Qle_bool_iff in E. lra.
Qed.

Lemma ltb_lt (x y : Q) : Js.ltb x y = true <-> x < y.
Proof. unfold Js.ltb. rewrite negb_true_iff. apply leb_gt. Qed.

Lemma ltb_ge (x y : Q) : Js.ltb x y = false <-> y <= x.
Proof. unfold Js.ltb. rewrite negb_false_iff. apply leb_le. Qed.

Lemma geb_ge (x y : Q) : Js.geb x y = true <-> y <= x.
Proof. apply leb_le. Qed.

Lemma geb_lt (x y : Q) : Js.geb x y = false <-> x < y.
Proof. apply leb_gt. Qed.

Lemma gtb_gt (x y : Q) : Js.gtb x y = true <-> y < x.
Proof. apply ltb_lt. Qed.

Lemma gtb_le (x y : Q) : Js.gtb x y = false <-> x <= y.
Proof. apply ltb_ge. Qed.

#[export] Instance leb_proper : Proper (Qeq ==> Qeq ==> eq) Js.leb.
Proof. intros x x' Hx y y' Hy. unfold Js.leb. now rewrite Hx, Hy. Qed.

(** [Math.round] returns an integer within one half of its argument, the
    upper one on a tie. *)
Lemma round_bounds (x : Q) : x - (1 # 2) < Js.round x /\ Js.round x <= x + (1 # 2).
Proof.
  unfold Js.round. split.
  - pose proof (Qlt_floor (x + (1 # 2))) as H.
    rewrite inject_Z_plus in H. change (inject_Z 1) with 1 in H. lra.
  - apply Qfloor_le.
Qed.

Lemma round_mono (x y : Q) : x <= y -> Js.round x <= Js.round y.
Proof.
  intro H. unfold Js.round. rewrite <- Zle_Qle.
  apply Qfloor_resp_le. lra.
Qed.

Lemma roundHalf_mono (x y : Q) : x <= y -> roundHalf x <= roundHalf y.
Proof.
  intro H. unfold roundHalf.
  assert (Js.round (x * 2) <= Js.round (y * 2)) by (apply round_mono; lra).
  const_div. lra.
Qed.

Lemma min_le_l (x y : Q) : Js.min x y <= x.
Proof. apply Q.le_min_l. Qed.

Lemma min_le_r (x y : Q) : Js.min x y <= y.
Proof. apply Q.le_min_r. Qed.

Lemma max_ge_l (x y : Q) : x <= Js.max x y.
Proof. apply Q.le_max_l. Qed.

Lemma max_ge_r (x y : Q) : y <= Js.max x y.
Proof. apply Q.le_max_r. Qed.

Lemma min_cases (x y : Q) :
  x <= y /\ Js.min x y == x \/ y <= x /\ Js.min x y == y.
Proof. apply Q.min_spec_le. Qed.

Lemma max_cases (x y : Q) :
  x <= y /\ Js.max x y == y \/ y <= x /\ Js.max x y == x.
Proof. apply Q.max_spec_le. Qed.

(** [clamp] with ordered bounds: the bound that [n] passes, else [n]. *)
Lemma clamp_cases (n lo hi : Q) :
  lo <= hi ->
  n < lo /\ clamp n lo hi == lo
  \/ hi < n /\ clamp n lo hi == hi
  \/ (lo <= n <= hi) /\ clamp n lo hi == n.
Proof.
  intro H. unfold clamp.
  destruct (max_cases lo n) as [[A B]|[A B]];
    destruct (min_cases hi (Js.max lo n)) as [[C D]|[C D]];
    destruct (Qlt_le_dec n lo); destruct (Qlt_le_dec hi n);
    try lra;
    first [ left; split; [assumption|lra]
          | right; left; split; [assumption|lra]
          | right; right; split; [split; assumption|lra] ].
Qed.

Lemma clamp_range (n lo hi : Q) : lo <= hi -> lo <= clamp n lo hi <= hi.
Proof. intro H. destruct (clamp_cases n lo hi H) as [[? ?]|[[? ?]|[? ?]]]; lra. Qed.

Lemma clamp_mono (x y lo hi : Q) :
  lo <= hi -> x <= y -> clamp x lo hi <= clamp y lo hi.
Proof.
  intros H L.
  destruct (clamp_cases x lo hi H) as [[? ?]|[[? ?]|[? ?]]];
    destruct (clamp_cases y lo hi H) as [[? ?]|[[? ?]|[? ?]]]; lra.
Qed.

(** ** Scanning a table of density bands *)

Section Bands.

Implicit Types (d : Q) (row r : ConversionRow) (rows : list ConversionRow).

Lemma inBand_iff d r :
  inBand d r = true <-> minDensity r <= d <= maxDensity r.
Proof.
  unfold inBand. rewrite andb_true_iff, geb_ge, leb_le. tauto.
Qed.

Lemma inBand_false d r :
  inBand d r = false <-> d < minDensity r \/ maxDensity r < d.
Proof.
  unfold inBand. rewrite andb_false_iff, geb_lt, leb_gt. tauto.
Qed.



(** The scan stops at the first row whose band holds the density. *)
Lemma lookupRow_first d rows row :
  lookupRow d rows = Some row <->
  exists pre post,
    rows = (pre ++ row :: post)%list
    /\ Forall (fun r => inBand d r = false) pre
    /\ inBand d row = true.
Proof.
  induction rows as [|r rest IH]; simpl.
  - split; [discriminate|].
    intros (pre & post & E & _). destruct pre; discriminate.
  - destruct (inBand d r) eqn:B.
    + split.
      * intro E. injection E as <-. exists [], rest. auto.
      * intros (pre & post & E & F & Hin).
        destruct pre as [|p pre]; simpl in E; injection E as -> ->.
        -- reflexivity.
        -- inversion F; congruence.
    + rewrite IH. split.
      * intros (pre & post & -> & F & Hin).
        exists (r :: pre), post. auto.
      * intros (pre & post & E & F & Hin).
        destruct pre as [|p pre]; simpl in E; injection E as -> ->.
        -- congruence.
        -- inversion F; subst. eauto.
Qed.

Lemma lookupRow_In d rows row :
  lookupRow d rows = Some row -> In row rows /\ inBand d row = true.
Proof.
  intro H. apply lookupRow_first in H as (pre & post & -> & _ & B).
  split; [|exact B]. apply in_or_app. right. now left.
Qed.

Lemma lookupRow_None d rows :
  lookupRow d rows = None <-> Forall (fun r => inBand d r = false) rows.
Proof.
  induction rows as [|r rest IH]; simpl.
  - split; auto.
  - destruct (inBand d r) eqn:B.
    + split; [discriminate|]. intro F. inversion F; congruence.
    + rewrite IH. split; [auto|]. intro F. now inversion F.
Qed.

(** On a descending table a larger density never finds a lower row. *)
Lemma lookupRow_monotone rows :
  descendingb rows = true ->
  forall d1 d2 r1 r2,
    d1 <= d2 ->
    lookupRow d1 rows = Some r1 ->
    lookupRow d2 rows = Some r2 ->
    karatLeb r1 r2 = true \/ r1 = r2.
Proof.
  induction rows as [|r rest IH]; simpl; [discriminate 3|].
  intros D d1 d2 r1 r2 L H1 H2.
  apply andb_true_iff in D as [Hr Hrest].
  rewrite forallb_forall in Hr.
  destruct (inBand d1 r) eqn:B1; destruct (inBand d2 r) eqn:B2.
  - right. congruence.
  - exfalso. injection H1 as <-.
    apply lookupRow_In in H2 as [I2 In2].
    specialize (Hr _ I2). apply andb_true_iff in Hr as [Hd _].
    apply leb_le in Hd. apply inBand_iff in B1, In2.
    apply inBand_false in B2. lra.
  - left. injection H2 as <-.
    apply lookupRow_In in H1 as [I1 _].
    specialize (Hr _ I1). now apply andb_true_iff in Hr as [_ Hk].
  - eauto.
Qed.


End Bands.

(** ** The reference table satisfies the scan's invariants *)

Lemma conversionTable_descending : descendingb conversionTable = true.
Proof. vm_compute. reflexivity. Qed.


Lemma conversionTable_inRange : forallb rowInRange conversionTable = true.
Proof. vm_compute. reflexivity. Qed.

Lemma lookupRow_inRange (d : Q) (row : ConversionRow) :
  lookupRow d conversionTable = Some row ->
  (exists (k : Z) (q : Q),
      (6 <= k <= 24)%Z /\ karatNum row = Some q /\ q == inject_Z k)
  /\ 9.70 <= d <= 19.32.
Proof.
  intro H. apply lookupRow_In in H as [I B]. apply inBand_iff in B.
  pose proof conversionTable_inRange as R. rewrite forallb_forall in R.
  specialize (R row I). unfold rowInRange in R.
  destruct (karatNum row) as [q|]; [|discriminate].
  repeat (apply andb_true_iff in R as [R ?]).
  apply Qeq_bool_iff in H1.
  match goal with
  | A : Js.leb 6 q = true, B : Js.leb q 24 = true,
    C : Js.leb 9.70 _ = true, D : Js.leb _ 19.32 = true |- _ =>
      apply leb_le in A, B, C, D
  end.
  split; [|lra].
  exists (Qfloor q), q. split; [|split; [reflexivity|exact H1]].
  rewrite H1 in R, H2.
  change 6 with (inject_Z 6) in R. change 24 with (inject_Z 24) in H2.
  rewrite <- Zle_Qle in R, H2. lia.
Qed.

(** ** The handler's two paths *)

Lemma waterDensityAt_cases (temp : option Q) :
  waterDensityAt temp = 0.9997 \/ waterDensityAt temp = 0.9957
  \/ waterDensityAt temp = 1.0.
Proof.
  unfold waterDensityAt. destruct temp as [t|]; [|auto].
  destruct (Js.ltb t 10); [auto|]. destruct (Js.gtb t 30); auto.
Qed.

Lemma waterDensityAt_pos (temp : option Q) : 0 < waterDensityAt temp.
Proof.
  destruct (waterDensityAt_cases temp) as [E|[E|E]]; rewrite E; reflexivity.
Qed.

Lemma Qdiv_pos (x y : Q) : 0 < x -> 0 < y -> 0 < x / y.
Proof. intros Hx Hy. apply Qlt_shift_div_l; [exact Hy|lra]. Qed.

Lemma calculatePurity_locals_Done (air water temp : option Q) (l : Locals.t) :
  calculatePurity_locals air water temp = Done l ->
  exists a w,
    air = Some a /\ water = Some w
    /\ 0 < a /\ 0 < w /\ w < a
    /\ 0 < Locals.volume l
    /\ Computed a w temp l.
Proof.
  unfold calculatePurity_locals.
  destruct air as [a|]; [|discriminate].
  destruct water as [w|]; [|discriminate].
  destruct (Js.leb a 0) eqn:A; [discriminate|].
  destruct (Js.leb w 0) eqn:W; [discriminate|].
  cbn [orb].
  destruct (Js.leb a w) eqn:AW; [discriminate|].
  destruct (Js.leb ((a - w) / waterDensityAt temp) 0) eqn:V; [discriminate|].
  intro E. injection E as <-.
  apply leb_gt in A, W, AW, V.
  exists a, w. repeat split; assumption.
Qed.

Lemma calculatePurity_locals_valid (a w : Q) (temp : option Q) :
  0 < a -> 0 < w -> w < a ->
  exists l, calculatePurity_locals (Some a) (Some w) temp = Done l.
Proof.
  intros A W AW. unfold calculatePurity_locals.
  apply leb_gt in A as ->, W as ->. cbn [orb].
  pose proof AW as AW'. apply leb_gt in AW' as ->.
  assert (V : 0 < (a - w) / waterDensityAt temp).
  { apply Qdiv_pos; [lra|apply waterDensityAt_pos]. }
  apply leb_gt in V as ->.
  eexists. reflexivity.
Qed.

(** The alerts of the handler, by cause. *)
Lemma calculatePurity_locals_Alert (air water temp : option Q) (msg : string) :
  calculatePurity_locals air water temp = Alert msg ->
  msg = alertInvalidNumber
  /\ (air = None \/ water = None
      \/ (exists a, air = Some a /\ a <= 0)
      \/ (exists w, water = Some w /\ w <= 0))
  \/ msg = alertAirNotAboveWater
     /\ (exists a w, air = Some a /\ water = Some w /\ 0 < a /\ 0 < w /\ a <= w).
Proof.
  unfold calculatePurity_locals.
  destruct air as [a|]; [|intro E; injection E as <-; auto].
  destruct water as [w|]; [|intro E; injection E as <-; auto].
  destruct (Js.leb a 0) eqn:A.
  { intro E; injection E as <-. apply leb_le in A. left. split; [reflexivity|].
    right; right; left. eauto. }
  destruct (Js.leb w 0) eqn:W.
  { intro E; injection E as <-. apply leb_le in W. left. split; [reflexivity|].
    right; right; right. eauto. }
  cbn [orb]. apply leb_gt in A, W.
  destruct (Js.leb a w) eqn:AW.
  { intro E; injection E as <-. apply leb_le in AW. right. split; [reflexivity|].
    exists a, w. auto. }
  apply leb_gt in AW.
  assert (V : 0 < (a - w) / waterDensityAt temp).
  { apply Qdiv_pos; [lra|apply waterDensityAt_pos]. }
  apply leb_gt in V as ->. discriminate.
Qed.

Lemma clampTo_clamp (n lo hi : Q) : lo <= hi -> Spec.clampTo lo hi n == clamp n lo hi.
Proof.
  intro H. unfold Spec.clampTo.
  destruct (clamp_cases n lo hi H) as [[? ?]|[[? ?]|[? ?]]];
    destruct (Qlt_le_dec n lo); try destruct (Qlt_le_dec hi n); lra.
Qed.

Lemma roundedHalfUp_round (v : Q) : Spec.roundedHalfUp v (Qfloor (v + (1 # 2))).
Proof. exact (round_bounds v). Qed.

Lemma nearestHalf_roundHalf (x y : Q) : x == y -> Spec.nearestHalf x (roundHalf y).
Proof.
  intro E. exists (Qfloor (y * 2 + (1 # 2))). split.
  - destruct (roundedHalfUp_round (y * 2)) as [A B].
    split; [rewrite E; exact A|rewrite E; exact B].
  - reflexivity.
Qed.

(** The bounds [computeFinalRange] rounds are ordered, so its swap is idle. *)
Lemma computeFinalRange_unswapped (kp : Q) (kd : option Q) :
  let lo := match kd with
            | Some kd => Js.min (clamp (kp - 1) 0 24) (clamp (kd - 1) 0 24)
            | None => clamp (kp - 1) 0 24
            end in
  let hi := match kd with
            | Some kd => Js.max (clamp (kp + 1) 0 24) (clamp (kd + 1) 0 24)
            | None => clamp (kp + 1) 0 24
            end in
  minK (computeFinalRange kp kd) = roundHalf lo
  /\ maxK (computeFinalRange kp kd) = roundHalf hi.
Proof.
  intros lo hi.
  assert (P : clamp (kp - 1) 0 24 <= clamp (kp + 1) 0 24)
    by (apply clamp_mono; lra).
  assert (L : lo <= hi).
  { subst lo hi. destruct kd as [kd|]; [|exact P].
    pose proof (min_le_l (clamp (kp - 1) 0 24) (clamp (kd - 1) 0 24)).
    pose proof (max_ge_l (clamp (kp + 1) 0 24) (clamp (kd + 1) 0 24)).
    lra. }
  apply roundHalf_mono in L. apply gtb_le in L.
  unfold computeFinalRange.
  destruct kd as [kd|]; subst lo hi; cbv beta iota zeta; rewrite L; split; reflexivity.
Qed.

(** ** The claims *)


(** C3.  The range [computeFinalRange] returns is ordered, minK <= maxK, for
    every percent estimate and every density estimate, null included; so is
    the range of every calculation that reaches [setResult]. *)
Theorem final_range_is_ordered :
  (forall (karatFromPercent : Q) (karatFromDensity : option Q),
      minK (computeFinalRange karatFromPercent karatFromDensity)
      <= maxK (computeFinalRange karatFromPercent karatFromDensity))
  /\ (forall air water temp l,
         calculatePurity_locals air water temp = Done l ->
         minK (Locals.final l) <= maxK (Locals.final l)).
Proof.
  assert (G : forall kp kd,
             minK (computeFinalRange kp kd) <= maxK (computeFinalRange kp kd)).
  { intros kp kd. unfold computeFinalRange.
    destruct kd as [kd|]; cbv beta iota zeta;
      match goal with
      | |- context [Js.gtb ?a ?b] => destruct (Js.gtb a b) eqn:S
      end; cbn [minK maxK];
      first [ apply gtb_gt in S; lra | apply gtb_le in S; exact S ]. }
  split; [exact G|].
  intros air water temp l H.
  apply calculatePurity_locals_Done in H as (a & w & _ & _ & _ & _ & _ & _ & C).
  rewrite (c_final _ _ _ _ C). apply G.
Qed.

Lemma final_range_is_ordered_at_scenario_1 :
  exists l,
    calculatePurity_locals (Some 10.50) (Some 9.80) (Some 20) = Done l
    /\ minK (Locals.final l) <= maxK (Locals.final l).
Proof.
  destruct (calculatePurity_locals_valid 10.50 9.80 (Some 20)) as [l H];
    try reflexivity.
  exists l. split; [exact H|].
  exact (proj2 final_range_is_ordered _ _ _ l H).
Defined.

(** C4.  The handler fails with InvalidInputError (one of its two input
    alerts) exactly when a weight is not a number or is <= 0, or when
    airWeight <= waterWeight.  It then returns before any binding of the
    calculation exists and leaves the stored result as it was.  With both
    weights equal to 1 it fails in this way. *)
Theorem invalid_input_is_rejected :
  (forall air water temp,
      (exists msg,
          calculatePurity_locals air water temp = Alert msg
          /\ InvalidInputError msg)
      <-> Spec.invalidInput air water)
  /\ (forall air water temp st,
         Spec.invalidInput air water ->
         result (calculatePurity air water temp st) = result st
         /\ exists msg,
             alerts (calculatePurity air water temp st) = msg :: alerts st
             /\ InvalidInputError msg)
  /\ (forall temp,
         calculatePurity_locals (Some 1) (Some 1) temp
         = Alert alertAirNotAboveWater
         /\ InvalidInputError alertAirNotAboveWater).
Proof.
  assert (Fwd : forall air water temp,
             Spec.invalidInput air water ->
             exists msg,
               calculatePurity_locals air water temp = Alert msg
               /\ InvalidInputError msg).
  { intros air water temp H. unfold calculatePurity_locals, InvalidInputError.
    destruct air as [a|]; [|input_alert]. destruct water as [w|]; [|input_alert].
    destruct (Js.leb a 0) eqn:A; [input_alert|].
    destruct (Js.leb w 0) eqn:W; [input_alert|]. cbn [orb].
    destruct (Js.leb a w) eqn:AW; [input_alert|].
    exfalso. apply leb_gt in A, W, AW.
    destruct H as [H|[H|[(x & E & H)|[(x & E & H)|(x & y & E & E' & H)]]]];
      try discriminate; try injection E as <-; try injection E' as <-; lra. }
  split; [|split].
  - intros air water temp. split; [|apply Fwd].
    intros (msg & H & _). unfold Spec.invalidInput.
    apply calculatePurity_locals_Alert in H
      as [[_ [H|[H|[H|H]]]]|[_ (a & w & -> & -> & _ & _ & H)]]; eauto 10.
  - intros air water temp st H.
    destruct (Fwd air water temp H) as (msg & E & I).
    unfold calculatePurity. rewrite E. cbn [result alerts]. eauto.
  - intro temp. split; [reflexivity|]. right. reflexivity.
Qed.

Lemma invalid_input_is_rejected_equal_weights :
  Spec.invalidInput (Some 1) (Some 1)
  /\ result (calculatePurity (Some 1) (Some 1) (Some 20) initialState) = None
  /\ exists msg,
      alerts (calculatePurity (Some 1) (Some 1) (Some 20) initialState) = [msg]
      /\ InvalidInputError msg.
Proof.
  assert (H : Spec.invalidInput (Some 1) (Some 1)).
  { do 4 right. exists 1, 1. repeat split. discriminate. }
  split; [exact H|].
  exact (proj1 (proj2 invalid_input_is_rejected)
           (Some 1) (Some 1) (Some 20) initialState H).
Defined.





(** C7.  When d1 <= d2 and both find a row of the table, both rows carry a
    number of karats and the one d2 finds is at least the one d1 finds. *)
Theorem table_lookup_is_monotone (d1 d2 : Q) (r1 r2 : ConversionRow) :
  d1 <= d2 ->
  lookupRow d1 conversionTable = Some r1 ->
  lookupRow d2 conversionTable = Some r2 ->
  exists k1 k2, karatNum r1 = Some k1 /\ karatNum r2 = Some k2 /\ k1 <= k2.
Proof.
  intros L H1 H2.
  destruct (lookupRow_inRange _ _ H1) as [(z1 & k1 & _ & E1 & _) _].
  destruct (lookupRow_inRange _ _ H2) as [(z2 & k2 & _ & E2 & _) _].
  exists k1, k2. split; [exact E1|]. split; [exact E2|].
  destruct (lookupRow_monotone _ conversionTable_descending _ _ _ _ L H1 H2)
    as [K| ->].
  - unfold karatLeb in K. rewrite E1, E2 in K. now apply leb_le.
  - rewrite E1 in E2. injection E2 as ->. apply Qle_refl.
Qed.

Lemma table_lookup_is_monotone_at_15_and_16 :
  exists r1 r2 k1 k2,
    lookupRow 15 conversionTable = Some r1
    /\ lookupRow 16 conversionTable = Some r2
    /\ karatNum r1 = Some k1 /\ karatNum r2 = Some k2 /\ k1 <= k2.
Proof.
  assert (L : 15 <= 16) by discriminate.
  destruct (table_lookup_is_monotone 15 16 _ _ L eq_refl eq_refl)
    as (k1 & k2 & E1 & E2 & K).
  do 4 eexists. split; [reflexivity|]. split; [reflexivity|].
  split; [exact E1|]. split; [exact E2|exact K].
Defined.



(** ** Further properties of the code *)

(** *** Rounding *)

Lemma floor_ge (z : Z) (x : Q) : (z <= Qfloor x)%Z <-> inject_Z z <= x.
Proof.
  split; intro H.
  - apply Qle_trans with (inject_Z (Qfloor x)); [|apply Qfloor_le].
    now rewrite <- Zle_Qle.
  - apply Qfloor_resp_le in H. now rewrite Qfloor_Z in H.
Qed.

Lemma floor_unique (z : Z) (x : Q) :
  inject_Z z <= x -> x < inject_Z (z + 1) -> Qfloor x = z.
Proof.
  intros Lo Hi. apply Z.le_antisymm.
  - apply Z.lt_succ_r. rewrite Zlt_Qlt.
    apply Qle_lt_trans with x; [apply Qfloor_le|exact Hi].
  - now apply floor_ge.
Qed.

Lemma floor_shift (x : Q) (z : Z) : Qfloor (x + inject_Z z) = (Qfloor x + z)%Z.
Proof.
  apply floor_unique.
  - rewrite inject_Z_plus. pose proof (Qfloor_le x). lra.
  - pose proof (Qlt_floor x) as H.
    rewrite !inject_Z_plus in *. lra.
Qed.

#[export] Instance round_proper : Proper (Qeq ==> eq) Js.round.
Proof. intros x y E. unfold Js.round. now rewrite E. Qed.

#[export] Instance roundHalf_proper : Proper (Qeq ==> Qeq) roundHalf.
Proof. intros x y E. unfold roundHalf. now rewrite E. Qed.

Lemma roundHalf_near (x : Q) :
  x - (1 # 4) < roundHalf x /\ roundHalf x <= x + (1 # 4).
Proof.
  unfold roundHalf. destruct (round_bounds (x * 2)) as [A B].
  const_div. lra.
Qed.

(** [roundHalf] leaves a multiple of one half as it is. *)
Lemma roundHalf_half (z : Z) : roundHalf (inject_Z z / 2) == inject_Z z / 2.
Proof.
  unfold roundHalf, Js.round.
  replace (Qfloor (inject_Z z / 2 * 2 + (1 # 2))) with z; [reflexivity|].
  symmetry. apply floor_unique.
  - const_div. lra.
  - rewrite inject_Z_plus. const_div. change (inject_Z 1) with 1. lra.
Qed.

Lemma roundHalf_plus_1 (x : Q) : roundHalf (x + 1) == roundHalf x + 1.
Proof.
  unfold roundHalf, Js.round.
  assert (E : (x + 1) * 2 + (1 # 2) == x * 2 + (1 # 2) + inject_Z 2)
    by (change (inject_Z 2) with 2; lra).
  rewrite E, floor_shift, inject_Z_plus. change (inject_Z 2) with 2.
  const_div. lra.
Qed.

Lemma roundHalf_is_half (x : Q) : exists n : Z, roundHalf x == inject_Z n / 2.
Proof. eexists. reflexivity. Qed.

(** *** [getBadgeForRange] *)




(** *** [computeFinalRange] *)

Lemma computeFinalRange_rounded (kp : Q) (kd : option Q) :
  exists lo hi,
    minK (computeFinalRange kp kd) = roundHalf lo
    /\ maxK (computeFinalRange kp kd) = roundHalf hi
    /\ 0 <= lo <= 24 /\ 0 <= hi <= 24
    /\ lo <= clamp (kp - 1) 0 24 /\ clamp (kp + 1) 0 24 <= hi
    /\ match kd with
       | Some k => lo <= clamp (k - 1) 0 24 /\ clamp (k + 1) 0 24 <= hi
       | None => lo = clamp (kp - 1) 0 24 /\ hi = clamp (kp + 1) 0 24
       end.
Proof.
  destruct (computeFinalRange_unswapped kp kd) as [Emin Emax].
  assert (B : 0 <= 24) by lra.
  pose proof (clamp_range (kp - 1) 0 24 B).
  pose proof (clamp_range (kp + 1) 0 24 B).
  destruct kd as [k|]; cbv zeta in Emin, Emax.
  - pose proof (clamp_range (k - 1) 0 24 B).
    pose proof (clamp_range (k + 1) 0 24 B).
    eexists _, _. split; [exact Emin|]. split; [exact Emax|].
    destruct (min_cases (clamp (kp - 1) 0 24) (clamp (k - 1) 0 24)) as [[? ?]|[? ?]];
      destruct (max_cases (clamp (kp + 1) 0 24) (clamp (k + 1) 0 24)) as [[? ?]|[? ?]];
      repeat split; lra.
  - eexists _, _. split; [exact Emin|]. split; [exact Emax|].
    repeat split; lra.
Qed.

Lemma roundHalf_0 : roundHalf 0 == 0.
Proof. reflexivity. Qed.

Lemma roundHalf_24 : roundHalf 24 == 24.
Proof. reflexivity. Qed.

(** X2.  Whatever the two estimates are, both bounds of the final range are
    multiples of one half between 0 and 24. *)
Theorem final_range_within_0_24_in_halves (kp : Q) (kd : option Q) :
  0 <= minK (computeFinalRange kp kd)
  /\ maxK (computeFinalRange kp kd) <= 24
  /\ (exists n : Z, minK (computeFinalRange kp kd) == inject_Z n / 2)
  /\ (exists n : Z, maxK (computeFinalRange kp kd) == inject_Z n / 2).
Proof.
  destruct (computeFinalRange_rounded kp kd)
    as (lo & hi & -> & -> & [L0 L24] & [H0 H24] & _).
  split; [|split; [|split; apply roundHalf_is_half]].
  - rewrite <- roundHalf_0. now apply roundHalf_mono.
  - rewrite <- roundHalf_24. now apply roundHalf_mono.
Qed.

Lemma roundHalf_int (z : Z) : roundHalf (inject_Z z) == inject_Z z.
Proof.
  assert (E : inject_Z z == inject_Z (2 * z) / 2).
  { rewrite inject_Z_mult. change (inject_Z 2) with 2. const_div. lra. }
  rewrite E at 1. rewrite roundHalf_half. symmetry. exact E.
Qed.

(** X3.  A percent estimate between 0 and 24 lies inside the final range,
    and a density estimate k that is a whole number between 1 and 24 is
    covered with its margin: minK <= k - 1 and min(k + 1, 24) <= maxK. *)
Theorem final_range_covers_both_estimates (kp : Q) (kd : option Q) :
  0 <= kp <= 24 ->
  minK (computeFinalRange kp kd) <= kp <= maxK (computeFinalRange kp kd)
  /\ (forall z : Z,
         kd = Some (inject_Z z) -> (1 <= z <= 24)%Z ->
         minK (computeFinalRange kp kd) <= inject_Z z - 1
         /\ Qmin (inject_Z z + 1) 24 <= maxK (computeFinalRange kp kd)).
Proof.
  intros [K0 K24].
  destruct (computeFinalRange_rounded kp kd)
    as (lo & hi & -> & -> & _ & _ & Lp & Hp & D).
  assert (B : 0 <= 24) by lra.
  split; [split|].
  - destruct (clamp_cases (kp - 1) 0 24 B) as [[? E]|[[? E]|[? E]]].
    + apply Qle_trans with (roundHalf 0); [apply roundHalf_mono; lra|].
      rewrite roundHalf_0. exact K0.
    + lra.
    + pose proof (roundHalf_near lo). lra.
  - destruct (clamp_cases (kp + 1) 0 24 B) as [[? E]|[[? E]|[? E]]].
    + lra.
    + apply Qle_trans with (roundHalf 24); [|apply roundHalf_mono; lra].
      rewrite roundHalf_24. exact K24.
    + pose proof (roundHalf_near hi). lra.
  - intros z -> [Z1 Z24].
    destruct D as [Lk Hk].
    pose proof Z1 as Q1. pose proof Z24 as Q24.
    rewrite Zle_Qle in Q1, Q24. change (inject_Z 1) with 1 in Q1.
    change (inject_Z 24) with 24 in Q24.
    split.
    + destruct (clamp_cases (inject_Z z - 1) 0 24 B) as [[? E1]|[[? E1]|[? E1]]];
        try lra.
      apply Qle_trans with (roundHalf (inject_Z (z + -1))).
      * apply roundHalf_mono. rewrite inject_Z_plus.
        change (inject_Z (-1)) with (-1). lra.
      * rewrite roundHalf_int, inject_Z_plus.
        change (inject_Z (-1)) with (-1). lra.
    + destruct (clamp_cases (inject_Z z + 1) 0 24 B) as [[? E2]|[[? E2]|[? E2]]];
        try lra.
      * apply Qle_trans with 24; [apply Q.le_min_r|].
        rewrite <- roundHalf_24. apply roundHalf_mono. lra.
      * apply Qle_trans with (inject_Z z + 1); [apply Q.le_min_l|].
        apply Qle_trans with (roundHalf (inject_Z (z + 1))).
        -- rewrite roundHalf_int, inject_Z_plus. change (inject_Z 1) with 1. lra.
        -- apply roundHalf_mono. rewrite inject_Z_plus.
           change (inject_Z 1) with 1. lra.
Qed.

Lemma final_range_covers_both_estimates_at_13_and_17 :
  0 <= 13.2 <= 24
  /\ minK (computeFinalRange 13.2 (Some 17)) <= 13.2
     <= maxK (computeFinalRange 13.2 (Some 17))
  /\ minK (computeFinalRange 13.2 (Some 17)) <= 17 - 1
  /\ Qmin (17 + 1) 24 <= maxK (computeFinalRange 13.2 (Some 17)).
Proof.
  assert (H : 0 <= 13.2 <= 24) by (split; discriminate).
  destruct (final_range_covers_both_estimates 13.2 (Some 17) H) as [P D].
  split; [exact H|]. split; [exact P|].
  apply (D 17%Z eq_refl). lia.
Defined.

(** *** [getDeltaIndicator] *)



(** *** Equal numbers give equal texts and equal choices *)





#[export] Instance clamp_proper : Proper (Qeq ==> Qeq ==> Qeq ==> Qeq) clamp.
Proof.
  intros n n' En lo lo' Elo hi hi' Ehi. unfold clamp, Js.min, Js.max.
  now rewrite En, Elo, Ehi.
Qed.





Lemma Computed_percent_range (a w : Q) (temp : option Q) (l : Locals.t) :
  Computed a w temp l ->
  0 <= Locals.goldPercent l <= 100 /\ 0 <= Locals.karatFromPercentNum l <= 24.
Proof.
  intro C.
  rewrite (c_karatFromPercentNum _ _ _ _ C), (c_goldPercent _ _ _ _ C).
  set (g := clamp _ 0 100).
  assert (R : 0 <= g <= 100) by (apply clamp_range; lra).
  split; [exact R|]. const_div. lra.
Qed.


(** *** The density and the temperature correction *)

Lemma calculatePurity_waterDensity (air water t t' : option Q) (st : PageState) :
  waterDensityAt t = waterDensityAt t' ->
  calculatePurity air water t st = calculatePurity air water t' st.
Proof.
  intro E. unfold calculatePurity, calculatePurity_locals. now rewrite E.
Qed.

(** X7.  The stored result and the alerts depend on the temperature only
    through three cases: below 10, above 30, and the rest.  A temperature
    from 10 to 30, both included, and an empty temperature field give the
    same outcome; so do any two temperatures below 10, and any two above
    30. *)
Theorem temperature_acts_through_three_cases
  (air water : option Q) (st : PageState) :
  (forall t, 10 <= t <= 30 ->
             calculatePurity air water (Some t) st
             = calculatePurity air water None st)
  /\ (forall t t', t < 10 -> t' < 10 ->
                   calculatePurity air water (Some t) st
                   = calculatePurity air water (Some t') st)
  /\ (forall t t', 30 < t -> 30 < t' ->
                   calculatePurity air water (Some t) st
                   = calculatePurity air water (Some t') st).
Proof.
  split; [|split].
  - intros t [Lo Hi]. apply calculatePurity_waterDensity. unfold waterDensityAt.
    apply ltb_ge in Lo as ->. apply gtb_le in Hi as ->. reflexivity.
  - intros t t' L L'. apply calculatePurity_waterDensity. unfold waterDensityAt.
    apply ltb_lt in L as ->. apply ltb_lt in L' as ->. reflexivity.
  - intros t t' G G'. apply calculatePurity_waterDensity. unfold waterDensityAt.
    assert (N : 10 <= t) by lra. assert (N' : 10 <= t') by lra.
    apply ltb_ge in N as ->. apply ltb_ge in N' as ->.
    apply gtb_gt in G as ->. apply gtb_gt in G' as ->. reflexivity.
Qed.

Lemma temperature_acts_through_three_cases_at_the_bounds :
  calculatePurity (Some 10.50) (Some 9.80) (Some 10) initialState
  = calculatePurity (Some 10.50) (Some 9.80) None initialState
  /\ calculatePurity (Some 10.50) (Some 9.80) (Some 30) initialState
     = calculatePurity (Some 10.50) (Some 9.80) None initialState.
Proof.
  pose proof (proj1 (temperature_acts_through_three_cases
                       (Some 10.50) (Some 9.80) initialState)) as T.
  split; apply T; split; discriminate.
Defined.

(** *** The percent estimate *)



(** *** The alerts *)

(** X10.  Every click either adds exactly one alert and keeps the stored
    result, or stores a result and adds no alert.  The alert about invalid
    numbers is the one shown exactly when a weight is missing, zero or
    negative, also when air <= water holds as well; the alert asking for air
    above water is shown exactly when both weights are positive and
    air <= water; the alert about the volume is never shown. *)
Theorem alerts_by_cause (air water temp : option Q) (st : PageState) :
  let st' := calculatePurity air water temp st in
  ((exists msg, alerts st' = msg :: alerts st /\ result st' = result st)
   \/ (exists r, result st' = Some r /\ alerts st' = alerts st))
  /\ (calculatePurity_locals air water temp = Alert alertInvalidNumber
      <-> air = None \/ water = None
          \/ (exists a, air = Some a /\ a <= 0)
          \/ (exists w, water = Some w /\ w <= 0))
  /\ (calculatePurity_locals air water temp = Alert alertAirNotAboveWater
      <-> exists a w, air = Some a /\ water = Some w
                      /\ 0 < a /\ 0 < w /\ a <= w)
  /\ calculatePurity_locals air water temp <> Alert alertVolume.
Proof.
  cbv zeta. split; [|split; [|split]].
  - unfold calculatePurity.
    destruct (calculatePurity_locals air water temp) as [msg|l];
      cbn [result alerts]; eauto.
  - split.
    + intro H. apply calculatePurity_locals_Alert in H as [[_ H]|[E _]];
        [exact H|discriminate E].
    + unfold calculatePurity_locals.
      intros [->|[->|[(a & -> & A)|(w & -> & W)]]].
      * reflexivity.
      * destruct air; reflexivity.
      * destruct water as [w|]; [|reflexivity].
        apply leb_le in A as ->. reflexivity.
      * destruct air as [a|]; [|reflexivity].
        apply leb_le in W as ->. rewrite orb_true_r. reflexivity.
  - split.
    + intro H. apply calculatePurity_locals_Alert in H as [[E _]|[_ H]];
        [discriminate E|exact H].
    + intros (a & w & -> & -> & A & W & AW). unfold calculatePurity_locals.
      apply leb_gt in A as ->. apply leb_gt in W as ->.
      apply leb_le in AW as ->. reflexivity.
  - intro H. apply calculatePurity_locals_Alert in H as [[E _]|[E _]];
      discriminate E.
Qed.

(** *** The fields of the stored result *)




(** *** The table *)

Lemma conversionTable_percent : forallb percentFollowsKarat conversionTable = true.
Proof. vm_compute. reflexivity. Qed.

(** X12.  As the comment above the table says, the percent of every row is
    its karat over 24 as a percentage, to one decimal (within 0.05), except
    for 24K, which carries 99.9; and the labels of the rows are pairwise
    distinct. *)
Theorem table_percent_follows_karat :
  Forall (fun r =>
            exists k,
              parseKaratLabel (karat r) = Some k
              /\ (k == 24 -> percent r == 99.9)
              /\ (~ k == 24 -> Qabs (percent r - k / 24 * 100) <= 0.05))
         conversionTable
  /\ NoDup (map karat conversionTable).
Proof.
  split.
  - apply Forall_forall. intros r I.
    pose proof conversionTable_percent as P. rewrite forallb_forall in P.
    specialize (P r I). unfold percentFollowsKarat, karatNum in P.
    destruct (parseKaratLabel (karat r)) as [k|]; [|discriminate].
    exists k. split; [reflexivity|].
    destruct (Qeq_bool k 24) eqn:E.
    + apply Qeq_bool_iff in E, P. split; [auto|]. intro N. contradiction.
    + apply leb_le in P. split; [|auto].
      intro K. apply Qeq_bool_iff in K. congruence.
  - cbn [map conversionTable karat].
    repeat (apply NoDup_cons; [cbn [In]; intuition discriminate|]).
    apply NoDup_nil.
Qed.

(** *** The two estimates side by side *)







(** X14.  In every calculation that reaches [setResult] the final range
    contains the karat from percent, and when the table gave a karat k it
    contains k - 1 and the smaller of k + 1 and 24 as well; the range is at
    least one karat wide. *)
Theorem final_range_of_a_calculation (air water temp : option Q) (l : Locals.t) :
  calculatePurity_locals air water temp = Done l ->
  minK (Locals.final l) <= Locals.karatFromPercentNum l <= maxK (Locals.final l)
  /\ 1 <= maxK (Locals.final l) - minK (Locals.final l)
  /\ (forall k,
         Locals.karatFromDensityNum l = Some k ->
         minK (Locals.final l) <= k - 1
         /\ Qmin (k + 1) 24 <= maxK (Locals.final l)).
Proof.
  intro H.
  apply calculatePurity_locals_Done in H as (a & w & _ & _ & _ & _ & _ & _ & C).
  destruct (Computed_percent_range _ _ _ _ C) as [_ K].
  rewrite (c_final _ _ _ _ C).
  set (kp := Locals.karatFromPercentNum l) in *.
  set (kd := Locals.karatFromDensityNum l).
  destruct (computeFinalRange_rounded kp kd)
    as (lo & hi & Emin & Emax & _ & _ & Lp & Hp & D).
  assert (B : 0 <= 24) by lra.
  assert (P : clamp (kp - 1) 0 24 <= kp - 1 \/ clamp (kp - 1) 0 24 == 0).
  { destruct (clamp_cases (kp - 1) 0 24 B) as [[? E]|[[? E]|[? E]]];
      [right; exact E|lra|left; lra]. }
  assert (P' : kp + 1 <= clamp (kp + 1) 0 24 \/ clamp (kp + 1) 0 24 == 24).
  { destruct (clamp_cases (kp + 1) 0 24 B) as [[? E]|[[? E]|[? E]]];
      [lra|right; exact E|left; lra]. }
  assert (W : clamp (kp - 1) 0 24 + 1 <= clamp (kp + 1) 0 24).
  { destruct (clamp_cases (kp - 1) 0 24 B) as [[? E1]|[[? E1]|[? E1]]];
      destruct (clamp_cases (kp + 1) 0 24 B) as [[? E2]|[[? E2]|[? E2]]];
      lra. }
  rewrite Emin, Emax.
  split; [split|split].
  - destruct P as [P|P].
    + pose proof (roundHalf_near lo). lra.
    + apply Qle_trans with (roundHalf 0); [apply roundHalf_mono; lra|].
      rewrite roundHalf_0. lra.
  - destruct P' as [P'|P'].
    + pose proof (roundHalf_near hi). lra.
    + apply Qle_trans with (roundHalf 24); [|apply roundHalf_mono; lra].
      rewrite roundHalf_24. lra.
  - assert (L : lo + 1 <= hi) by lra.
    apply roundHalf_mono in L. rewrite roundHalf_plus_1 in L. lra.
  - intros k E. subst kd.
    rewrite (c_karatFromDensityNum _ _ _ _ C), (c_karatFromDensity _ _ _ _ C) in E.
    destruct (lookupRow (Locals.density l) conversionTable) as [row|] eqn:R;
      [|discriminate E].
    destruct (lookupRow_inRange _ _ R) as [(z & q & [Z6 Z24] & Eq & Ez) _].
    unfold karatNum in Eq. rewrite Eq in E. injection E as <-.
    rewrite (c_karatFromDensityNum _ _ _ _ C), (c_karatFromDensity _ _ _ _ C), R, Eq in D.
    destruct D as [Lk Hk].
    pose proof Z6 as Q6. pose proof Z24 as Q24.
    rewrite Zle_Qle in Q6, Q24. change (inject_Z 6) with 6 in Q6.
    change (inject_Z 24) with 24 in Q24.
    split.
    + destruct (clamp_cases (q - 1) 0 24 B) as [[? E1]|[[? E1]|[? E1]]]; try lra.
      apply Qle_trans with (roundHalf (inject_Z (z + -1))).
      * apply roundHalf_mono. rewrite inject_Z_plus.
        change (inject_Z (-1)) with (-1). lra.
      * rewrite roundHalf_int, inject_Z_plus.
        change (inject_Z (-1)) with (-1). lra.
    + destruct (clamp_cases (q + 1) 0 24 B) as [[? E2]|[[? E2]|[? E2]]]; try lra.
      * apply Qle_trans with 24; [apply Q.le_min_r|].
        rewrite <- roundHalf_24. apply roundHalf_mono. lra.
      * apply Qle_trans with (q + 1); [apply Q.le_min_l|].
        apply Qle_trans with (roundHalf (inject_Z (z + 1))).
        -- rewrite roundHalf_int, inject_Z_plus. change (inject_Z 1) with 1. lra.
        -- apply roundHalf_mono. rewrite inject_Z_plus.
           change (inject_Z 1) with 1. lra.
Qed.

Lemma final_range_of_a_calculation_at_scenario_1 :
  exists l,
    calculatePurity_locals (Some 10.50) (Some 9.80) (Some 20) = Done l
    /\ minK (Locals.final l) <= Locals.karatFromPercentNum l
       <= maxK (Locals.final l)
    /\ 1 <= maxK (Locals.final l) - minK (Locals.final l).
Proof.
  destruct (calculatePurity_locals_valid 10.50 9.80 (Some 20)) as [l H];
    try reflexivity.
  exists l. split; [exact H|].
  destruct (final_range_of_a_calculation _ _ _ l H) as (P & W & _).
  split; [exact P|exact W].
Defined.

(** *** Strings *)

Section Text.

Import JsText.

Lemma toUpperCase_map (s : string) : Js.toUpperCase s = mapChars Js.upper s.
Proof. induction s as [|c r IH]; cbn; [reflexivity|now rewrite IH]. Qed.

Lemma toLowerCase_map (s : string) : toLowerCase s = mapChars lower s.
Proof. induction s as [|c r IH]; cbn; [reflexivity|now rewrite IH]. Qed.

Lemma upper_lower (c : ascii) : Js.upper (lower c) = Js.upper c.
Proof. destruct c as [[] [] [] [] [] [] [] []]; reflexivity. Qed.

Lemma lower_upper (c : ascii) : lower (Js.upper c) = lower c.
Proof. destruct c as [[] [] [] [] [] [] [] []]; reflexivity. Qed.

Lemma isSpace_upper (c : ascii) : Js.isSpace (Js.upper c) = Js.isSpace c.
Proof. destruct c as [[] [] [] [] [] [] [] []]; reflexivity. Qed.

Lemma isSpace_lower (c : ascii) : Js.isSpace (lower c) = Js.isSpace c.
Proof. destruct c as [[] [] [] [] [] [] [] []]; reflexivity. Qed.

Lemma mapChars_mapChars (f g : ascii -> ascii) (s : string) :
  mapChars f (mapChars g s) = mapChars (fun c => f (g c)) s.
Proof. induction s as [|c r IH]; cbn; [reflexivity|now rewrite IH]. Qed.

Lemma mapChars_ext (f g : ascii -> ascii) (s : string) :
  (forall c, f c = g c) -> mapChars f s = mapChars g s.
Proof. intro E. induction s as [|c r IH]; cbn; [reflexivity|now rewrite E, IH]. Qed.

Lemma append_empty_r (s : string) : s ++ "" = s.
Proof. induction s as [|c r IH]; cbn; [reflexivity|now rewrite IH]. Qed.

Lemma append_assoc (s t u : string) : (s ++ t) ++ u = s ++ t ++ u.
Proof. induction s as [|c r IH]; cbn; [reflexivity|now rewrite IH]. Qed.

Lemma rev_acc_spec (s acc : string) : Js.rev_acc s acc = Js.rev s ++ acc.
Proof.
  unfold Js.rev. revert acc.
  induction s as [|c r IH]; intro acc; cbn; [reflexivity|].
  rewrite (IH (String c acc)), (IH (String c "")), append_assoc. reflexivity.
Qed.

Lemma rev_cons (c : ascii) (s : string) : Js.rev (String c s) = Js.rev s ++ String c "".
Proof. unfold Js.rev at 1. cbn. apply rev_acc_spec. Qed.

Lemma rev_app (s t : string) : Js.rev (s ++ t) = Js.rev t ++ Js.rev s.
Proof.
  induction s as [|c r IH]; cbn [append].
  - now rewrite append_empty_r.
  - now rewrite !rev_cons, IH, append_assoc.
Qed.

Lemma blank_app (s t : string) : blank (s ++ t) = blank s && blank t.
Proof.
  induction s as [|c r IH]; cbn; [reflexivity|].
  now rewrite IH, andb_assoc.
Qed.

Lemma blank_rev (s : string) : blank (Js.rev s) = blank s.
Proof.
  induction s as [|c r IH]; [reflexivity|].
  rewrite rev_cons, blank_app, IH. cbn. rewrite andb_true_r. apply andb_comm.
Qed.

Lemma trimStart_app (s t : string) :
  Js.trimStart (s ++ t) = if blank s then Js.trimStart t else Js.trimStart s ++ t.
Proof.
  induction s as [|c r IH]; cbn; [reflexivity|].
  destruct (Js.isSpace c); cbn; [exact IH|reflexivity].
Qed.

Lemma trimStart_blank (s : string) : blank s = true -> Js.trimStart s = "".
Proof.
  induction s as [|c r IH]; cbn; [reflexivity|].
  destruct (Js.isSpace c); cbn; [exact IH|discriminate].
Qed.

Lemma blank_trimStart (s : string) : blank s = false -> blank (Js.trimStart s) = false.
Proof.
  induction s as [|c r IH]; cbn; [discriminate|].
  destruct (Js.isSpace c) eqn:E; cbn; [exact IH|now rewrite E].
Qed.

(** [trim] drops the white space around a text. *)
Lemma trim_around (pre s post : string) :
  blank pre = true -> blank post = true ->
  Js.trim (pre ++ s ++ post) = Js.trim s.
Proof.
  intros Bpre Bpost. unfold Js.trim.
  rewrite trimStart_app, Bpre, trimStart_app.
  destruct (blank s) eqn:Bs.
  - rewrite (trimStart_blank post Bpost), (trimStart_blank s Bs). reflexivity.
  - rewrite rev_app, trimStart_app, blank_rev, Bpost. reflexivity.
Qed.

Lemma trim_blank (s : string) : blank s = true -> Js.trim s = "".
Proof. intro B. unfold Js.trim. now rewrite (trimStart_blank s B). Qed.

Section MapChars.

Variable f : ascii -> ascii.
Hypothesis f_space : forall c, Js.isSpace (f c) = Js.isSpace c.

Lemma trimStart_mapChars (s : string) :
  Js.trimStart (mapChars f s) = mapChars f (Js.trimStart s).
Proof.
  induction s as [|c r IH]; cbn; [reflexivity|].
  rewrite f_space. destruct (Js.isSpace c); [exact IH|reflexivity].
Qed.

Lemma mapChars_app (s t : string) : mapChars f (s ++ t) = mapChars f s ++ mapChars f t.
Proof. induction s as [|c r IH]; cbn; [reflexivity|now rewrite IH]. Qed.

Lemma rev_mapChars (s : string) : Js.rev (mapChars f s) = mapChars f (Js.rev s).
Proof.
  induction s as [|c r IH]; [reflexivity|].
  cbn [mapChars]. now rewrite !rev_cons, IH, mapChars_app.
Qed.

Lemma trim_mapChars (s : string) : Js.trim (mapChars f s) = mapChars f (Js.trim s).
Proof.
  unfold Js.trim.
  now rewrite trimStart_mapChars, rev_mapChars, trimStart_mapChars, rev_mapChars.
Qed.

End MapChars.

(** The text [parseKaratLabel] matches does not change when the case of the
    label changes. *)
Lemma upper_trim_lower (s : string) :
  Js.toUpperCase (Js.trim (toLowerCase s)) = Js.toUpperCase (Js.trim s).
Proof.
  rewrite toLowerCase_map, (trim_mapChars lower isSpace_lower), !toUpperCase_map,
    mapChars_mapChars.
  apply mapChars_ext, upper_lower.
Qed.

Lemma upper_trim_upper (s : string) :
  Js.toUpperCase (Js.trim (Js.toUpperCase s)) = Js.toUpperCase (Js.trim s).
Proof.
  rewrite !toUpperCase_map, (trim_mapChars Js.upper isSpace_upper),
    mapChars_mapChars.
  apply mapChars_ext. intro c.
  destruct c as [[] [] [] [] [] [] [] []]; reflexivity.
Qed.

Lemma lower_trim_upper (s : string) :
  toLowerCase (Js.trim (Js.toUpperCase s)) = toLowerCase (Js.trim s).
Proof.
  rewrite toUpperCase_map, (trim_mapChars Js.upper isSpace_upper), !toLowerCase_map,
    mapChars_mapChars.
  apply mapChars_ext, lower_upper.
Qed.

Lemma lower_trim_lower (s : string) :
  toLowerCase (Js.trim (toLowerCase s)) = toLowerCase (Js.trim s).
Proof.
  rewrite !toLowerCase_map, (trim_mapChars lower isSpace_lower),
    mapChars_mapChars.
  apply mapChars_ext. intro c.
  destruct c as [[] [] [] [] [] [] [] []]; reflexivity.
Qed.

Lemma startsWith_spec (s q : string) :
  startsWith s q = true <-> exists v, s = q ++ v.
Proof.
  revert s. induction q as [|a q IH]; intro s.
  - destruct s; cbn; split; eauto.
  - destruct s as [|b s]; cbn.
    + split; [discriminate|]. intros [v E]. discriminate E.
    + rewrite andb_true_iff, Ascii.eqb_eq, IH. split.
      * intros [-> [v ->]]. eauto.
      * intros [v E]. injection E as -> ->. eauto.
Qed.

Lemma includes_spec (s q : string) :
  includes s q = true <-> exists u v, s = u ++ q ++ v.
Proof.
  induction s as [|c r IH]; cbn [includes]; rewrite orb_true_iff.
  - rewrite startsWith_spec. split.
    + intros [[v E]|F]; [|discriminate]. exists "", v. exact E.
    + intros (u & v & E). left. destruct u; [|discriminate]. eauto.
  - rewrite startsWith_spec, IH. split.
    + intros [[v E]|(u & v & E)].
      * exists "", v. exact E.
      * exists (String c u), v. cbn. now rewrite E.
    + intros (u & v & E). destruct u as [|c' u]; cbn in E.
      * left. eauto.
      * right. injection E as -> ->. eauto.
Qed.

Lemma includes_refl (s : string) : includes s s = true.
Proof. apply includes_spec. exists "", "". cbn. now rewrite append_empty_r. Qed.

Lemma includes_trans (s t q : string) :
  includes s t = true -> includes t q = true -> includes s q = true.
Proof.
  rewrite !includes_spec. intros (u & v & ->) (u' & v' & ->).
  exists (u ++ u'), (v' ++ v). now rewrite !append_assoc.
Qed.

Lemma includes_empty (s : string) : includes "" s = true -> s = "".
Proof.
  rewrite includes_spec. intros (u & v & E).
  destruct u; [|discriminate]. destruct s; [reflexivity|discriminate].
Qed.

End Text.

(** *** [parseKaratLabel] *)

Lemma digitsValue_nonneg (s : string) (acc : Z) :
  (0 <= acc)%Z -> (0 <= Js.digitsValue acc s)%Z.
Proof.
  revert acc. induction s as [|c r IH]; intros acc H; cbn [Js.digitsValue];
    [exact H|].
  apply IH. pose proof (Nat2Z.is_nonneg (nat_of_ascii c - 48)). lia.
Qed.

Lemma numberOfDecimal_nonneg (ip fp : string) : 0 <= Js.numberOfDecimal ip fp.
Proof.
  unfold Js.numberOfDecimal.
  assert (A : 0 <= inject_Z (Js.digitsValue 0 ip)).
  { change 0 with (inject_Z 0). rewrite <- Zle_Qle.
    apply digitsValue_nonneg. lia. }
  assert (B : 0 <= inject_Z (Js.digitsValue 0 fp)).
  { change 0 with (inject_Z 0). rewrite <- Zle_Qle.
    apply digitsValue_nonneg. lia. }
  assert (P : 0 < inject_Z (10 ^ Z.of_nat (String.length fp))).
  { change 0 with (inject_Z 0). rewrite <- Zlt_Qlt.
    apply Z.pow_pos_nonneg; lia. }
  assert (D : 0 <= inject_Z (Js.digitsValue 0 fp)
                   / inject_Z (10 ^ Z.of_nat (String.length fp))).
  { apply Qle_shift_div_l; [exact P|lra]. }
  lra.
Qed.

Lemma parseKaratLabel_Some (s : string) (q : Q) :
  parseKaratLabel s = Some q -> exists ip fp, q = Js.numberOfDecimal ip fp.
Proof.
  unfold parseKaratLabel.
  destruct (Js.spanDigits (Js.toUpperCase (Js.trim s))) as [ip r].
  destruct ip as [|c ip]; [discriminate|].
  repeat match goal with
    | |- context [let (_, _) := ?x in _] => destruct x
    | |- context [match ?x with _ => _ end] => destruct x
    end;
    try discriminate; intros [= <-]; eauto.
Qed.

(** X15.  [parseKaratLabel] reads a label whatever ASCII white space
    surrounds it and whether or not it has been put in upper case; it reads
    a label of ASCII characters whatever the case of its letters; and the
    number it returns is never negative. *)
Theorem parseKaratLabel_ignores_case_and_blanks (pre s post : string) :
  JsText.blank pre = true -> JsText.blank post = true ->
  parseKaratLabel (pre ++ s ++ post) = parseKaratLabel s
  /\ (JsText.isAscii s = true ->
      parseKaratLabel (JsText.toLowerCase s) = parseKaratLabel s)
  /\ parseKaratLabel (Js.toUpperCase s) = parseKaratLabel s
  /\ (forall q, parseKaratLabel s = Some q -> 0 <= q).
Proof.
  intros Bpre Bpost. split; [|split; [|split]].
  - unfold parseKaratLabel. now rewrite (trim_around pre s post Bpre Bpost).
  - intros _. unfold parseKaratLabel. now rewrite upper_trim_lower.
  - unfold parseKaratLabel. now rewrite upper_trim_upper.
  - intros q H. apply parseKaratLabel_Some in H as (ip & fp & ->).
    apply numberOfDecimal_nonneg.
Qed.

Lemma parseKaratLabel_ignores_case_and_blanks_at_18k :
  parseKaratLabel ("  " ++ "18k" ++ " ") = parseKaratLabel "18k"
  /\ parseKaratLabel (JsText.toLowerCase "18K") = parseKaratLabel "18K"
  /\ parseKaratLabel "18k" = Some 18.
Proof.
  destruct (parseKaratLabel_ignores_case_and_blanks "  " "18k" " " eq_refl eq_refl)
    as (A & _ & _ & _).
  destruct (parseKaratLabel_ignores_case_and_blanks "" "18K" "" eq_refl eq_refl)
    as (_ & B & _ & _).
  split; [exact A|]. split; [exact (B eq_refl)|]. reflexivity.
Defined.

(** *** [filteredTable] *)

Lemma filteredTable_incl (s : string) : incl (filteredTable s) conversionTable.
Proof.
  unfold filteredTable.
  destruct (JsText.isEmpty _); [apply incl_refl|apply incl_filter].
Qed.

(** Filtering rows keeps their labels pairwise distinct. *)
Lemma filter_keeps_keys_distinct
  (keep : ConversionRow -> bool) (rows : list ConversionRow) :
  NoDup (map karat rows) -> NoDup (map karat (filter keep rows)).
Proof.
  induction rows as [|row rest IH]; cbn [map filter]; [auto|].
  intro N. apply NoDup_cons_iff in N as [Fresh Rest].
  destruct (keep row); cbn [map]; [|auto].
  apply NoDup_cons; [|auto].
  rewrite in_map_iff. intros (other & Same & Kept).
  apply Fresh. rewrite in_map_iff. exists other.
  apply filter_In in Kept. tauto.
Qed.

Lemma conversionTable_keys : NoDup (map karat conversionTable).
Proof.
  cbn [map conversionTable karat].
  repeat (apply NoDup_cons; [cbn [In]; intuition discriminate|]).
  apply NoDup_nil.
Qed.

(** X16.  Whatever is typed in the search box, the rows shown are rows of
    the table, in the order of the table, and their labels, which the page
    uses as keys, are pairwise distinct.  A search term of white space only
    shows the whole table. *)
Theorem filteredTable_selects_rows (searchTerm : string) :
  (exists keep, filteredTable searchTerm = filter keep conversionTable)
  /\ NoDup (map karat (filteredTable searchTerm))
  /\ (JsText.blank searchTerm = true -> filteredTable searchTerm = conversionTable).
Proof.
  split; [|split].
  - unfold filteredTable. destruct (JsText.isEmpty _); [|eauto].
    exists (fun _ => true). symmetry. apply forallb_filter_id. reflexivity.
  - unfold filteredTable. destruct (JsText.isEmpty _).
    + exact conversionTable_keys.
    + apply filter_keeps_keys_distinct, conversionTable_keys.
  - intro B. unfold filteredTable. rewrite (trim_blank _ B). reflexivity.
Qed.

Lemma filteredTable_selects_rows_for_blanks :
  filteredTable "   " = conversionTable.
Proof.
  exact (proj2 (proj2 (filteredTable_selects_rows "   ")) eq_refl).
Defined.

(** X17.  The search ignores the case of what is typed and the ASCII white
    space around it. *)
Theorem filteredTable_ignores_case_and_blanks (pre s post : string) :
  JsText.blank pre = true -> JsText.blank post = true ->
  filteredTable (pre ++ s ++ post) = filteredTable s
  /\ filteredTable (Js.toUpperCase s) = filteredTable s
  /\ filteredTable (JsText.toLowerCase s) = filteredTable s.
Proof.
  intros Bpre Bpost. unfold filteredTable. split; [|split].
  - now rewrite (trim_around pre s post Bpre Bpost).
  - now rewrite lower_trim_upper.
  - now rewrite lower_trim_lower.
Qed.

Lemma filteredTable_ignores_case_and_blanks_at_18k :
  filteredTable (" " ++ "18k" ++ "  ") = filteredTable "18k"
  /\ filteredTable (Js.toUpperCase "18k") = filteredTable "18k".
Proof.
  destruct (filteredTable_ignores_case_and_blanks " " "18k" "  " eq_refl eq_refl)
    as (A & B & _).
  split; [exact A|exact B].
Defined.

Lemma rowMatches_narrows (q q' : string) (r : ConversionRow) :
  JsText.includes q' q = true -> rowMatches q' r = true -> rowMatches q r = true.
Proof.
  intros I. unfold rowMatches. rewrite !orb_true_iff.
  intros [[H|H]|H]; [left; left|left; right|right];
    exact (includes_trans _ _ _ H I).
Qed.

(** X18.  Refining a search never adds rows: when the term of one search,
    trimmed and in lower case, contains the term of another, every row the
    first search shows is shown by the other too. *)
Theorem filteredTable_narrows (s s' : string) :
  JsText.includes (JsText.toLowerCase (Js.trim s'))
                  (JsText.toLowerCase (Js.trim s)) = true ->
  incl (filteredTable s') (filteredTable s).
Proof.
  intro I. unfold filteredTable.
  destruct (JsText.toLowerCase (Js.trim s)) as [|c q] eqn:Q; cbn [JsText.isEmpty].
  - destruct (JsText.isEmpty _); [apply incl_refl|apply incl_filter].
  - destruct (JsText.toLowerCase (Js.trim s')) as [|c' q'] eqn:Q';
      cbn [JsText.isEmpty].
    + apply includes_empty in I. discriminate I.
    + intros r H. apply filter_In in H as [H M]. apply filter_In.
      split; [exact H|]. exact (rowMatches_narrows _ _ r I M).
Qed.

Lemma filteredTable_narrows_from_8_to_18k :
  incl (filteredTable "18k") (filteredTable "8").
Proof.
  exact (filteredTable_narrows "8" "18k" eq_refl).
Defined.

(** X19.  Every row of the table is found by a search for its own label,
    and a search for its percent as the number prints finds that row only.
    The density column shows two decimals, while the search looks at the
    numbers as they print without trailing zeros: a search for a row's
    lower bound as shown, or for its whole density cell as shown, finds no
    row at all. *)
Theorem filteredTable_finds_rows_by_their_texts :
  Forall (fun r =>
            In r (filteredTable (karat r))
            /\ filteredTable (JsText.numberToString (percent r)) = [r]
            /\ filteredTable (Js.toFixed (minDensity r) 2) = []
            /\ filteredTable (Js.toFixed (minDensity r) 2 ++ " - "
                              ++ Js.toFixed (maxDensity r) 2) = [])
         conversionTable.
Proof.
  unfold conversionTable.
  repeat apply Forall_cons; try apply Forall_nil;
    (split; [vm_compute; auto 30|]);
    (split; [vm_compute; reflexivity|]);
    (split; vm_compute; reflexivity).
Qed.

(** *** Densities outside the table *)



(** ** Binary64 arithmetic *)

(** *** Running the binary64 embedding *)

Example binary64_sum_of_tenths :
  B64.gtb (B64.add (B64.lit 0.1) (B64.lit 0.2)) (B64.lit 0.3) = true
  /\ B64.add (B64.lit 0.5) (B64.lit 0.25) = B64.lit 0.75.
Proof. split; vm_compute; reflexivity. Qed.

Example binary64_scenario_10_50_and_9_80 :
  exists l,
    B64.calculatePurity_locals (B64.lit 10.50) (B64.lit 9.80) (B64.lit 20)
    = Done l
    /\ density (B64.resultOf l) = "15.00"
    /\ goldPercent (B64.resultOf l) = "55.1"
    /\ karatFromPercent (B64.resultOf l) = "13.2K"
    /\ karatFromDensity (B64.resultOf l) = "17K"
    /\ deltaKarat (B64.resultOf l) = "3.8K"
    /\ deltaLabel (B64.resultOf l) = "WASPADA".
Proof. eexists. split; [vm_compute; reflexivity|]. repeat split. Qed.

(** The same proportions at another scale fall in another row of the
    table: the difference 1.77 - 1.67 is rounded to a number above 0.1, so
    that the density falls below the bound 17.70 of the rows 21K and 22K,
    which 177 / 10 reaches. *)
Example binary64_scale_of_the_weights :
  (exists l,
      B64.calculatePurity_locals (B64.lit 1.77) (B64.lit 1.67) B64.NaN = Done l
      /\ B64.Locals.karatFromDensity l = "21K")
  /\ (exists l,
         B64.calculatePurity_locals (B64.lit 177) (B64.lit 167) B64.NaN = Done l
         /\ B64.Locals.karatFromDensity l = "22K").
Proof. split; eexists; (split; [vm_compute; reflexivity|reflexivity]). Qed.

(** *** Rounding to the nearest integer, ties to even *)

Lemma rne_floor (z : Q) : (Qfloor z <= B64.rne z <= Qfloor z + 1)%Z.
Proof.
  unfold B64.rne. cbv zeta.
  destruct (Qcompare _ _); [destruct (Z.even _)| |]; lia.
Qed.

Lemma rne_int (n : Z) : B64.rne (inject_Z n) = n.
Proof.
  unfold B64.rne. cbv zeta. rewrite Qfloor_Z.
  destruct (Qcompare_spec (inject_Z n - inject_Z n) (1 # 2)) as [A|A|A];
    [exfalso; lra|reflexivity|exfalso; lra].
Qed.

Lemma rne_mono (z z' : Q) : z <= z' -> (B64.rne z <= B64.rne z')%Z.
Proof.
  intro L.
  pose proof (Qfloor_resp_le _ _ L) as F.
  destruct (Z.eq_dec (Qfloor z) (Qfloor z')) as [E|N].
  - unfold B64.rne. cbv zeta. rewrite <- E.
    destruct (Qcompare_spec (z - inject_Z (Qfloor z)) (1 # 2)) as [A|A|A];
      destruct (Qcompare_spec (z' - inject_Z (Qfloor z)) (1 # 2)) as [B|B|B];
      try destruct (Z.even (Qfloor z)); try lia; exfalso; lra.
  - pose proof (rne_floor z). pose proof (rne_floor z'). lia.
Qed.

#[export] Instance rne_proper : Proper (Qeq ==> eq) B64.rne.
Proof.
  intros z z' E. unfold B64.rne. cbv zeta.
  rewrite (Qfloor_comp _ _ E).
  assert (C : z - inject_Z (Qfloor z') == z' - inject_Z (Qfloor z'))
    by now rewrite E.
  now rewrite (Qcompare_comp _ _ C _ _ (Qeq_refl (1 # 2))).
Qed.

(** *** Powers of two *)

Lemma pow2_pos_strict (k : Z) : (0 <= k)%Z -> (0 < 2 ^ k)%Z.
Proof. intro H. apply Z.pow_pos_nonneg; lia. Qed.

Lemma pow2_pos (k : Z) : (0 <= k)%Z -> 0 < inject_Z (2 ^ k).
Proof.
  intro H. change 0 with (inject_Z 0). rewrite <- Zlt_Qlt.
  now apply pow2_pos_strict.
Qed.

Lemma Qdiv_le_pow (a : Q) (n k : Z) :
  (0 <= k)%Z -> a <= inject_Z (n * 2 ^ k) -> a / inject_Z (2 ^ k) <= inject_Z n.
Proof.
  intros K H. apply Qle_shift_div_r; [now apply pow2_pos|].
  now rewrite <- inject_Z_mult.
Qed.

Lemma Qdiv_ge_pow (a : Q) (n k : Z) :
  (0 <= k)%Z -> inject_Z (n * 2 ^ k) <= a -> inject_Z n <= a / inject_Z (2 ^ k).
Proof.
  intros K H. apply Qle_shift_div_l; [now apply pow2_pos|].
  now rewrite <- inject_Z_mult.
Qed.

(** *** Rounding a magnitude to 53 bits *)

Lemma shift_nonneg (a : Q) : (0 <= B64.shift a)%Z.
Proof. unfold B64.shift. lia. Qed.

Lemma shift_mono (a a' : Q) : a <= a' -> (B64.shift a <= B64.shift a')%Z.
Proof.
  intro L. unfold B64.shift.
  pose proof (Z.log2_le_mono _ _ (Qfloor_resp_le _ _ L)). lia.
Qed.

(** A magnitude is below 2^(53 + shift). *)
Lemma below_shift (a : Q) : 0 <= a -> a < inject_Z (2 ^ (53 + B64.shift a)).
Proof.
  intro A.
  assert (F : (0 <= Qfloor a)%Z) by (apply (Qfloor_resp_le 0 a) in A; exact A).
  assert (B : (Qfloor a + 1 <= 2 ^ (53 + B64.shift a))%Z).
  { destruct (Z.eq_dec (Qfloor a) 0) as [E|N].
    - rewrite E. pose proof (shift_nonneg a).
      assert (2 ^ 0 <= 2 ^ (53 + B64.shift a))%Z
        by (apply Z.pow_le_mono_r; lia).
      change (2 ^ 0)%Z with 1%Z in *. lia.
    - assert (P : (0 < Qfloor a)%Z) by lia.
      destruct (Z.log2_spec _ P) as [_ U].
      assert (2 ^ Z.succ (Z.log2 (Qfloor a)) <= 2 ^ (53 + B64.shift a))%Z.
      { apply Z.pow_le_mono_r; [lia|]. unfold B64.shift. lia. }
      lia. }
  apply Qlt_le_trans with (inject_Z (Qfloor a + 1)); [apply Qlt_floor|].
  now rewrite <- Zle_Qle.
Qed.

(** A magnitude that drops bits is at least 2^(52 + shift). *)
Lemma above_shift (a : Q) :
  (0 < B64.shift a)%Z -> inject_Z (2 ^ (52 + B64.shift a)) <= a.
Proof.
  intro S. unfold B64.shift in *.
  assert (P : (0 < Qfloor a)%Z).
  { destruct (Z.le_gt_cases (Qfloor a) 0) as [N|]; [|assumption].
    rewrite (Z.log2_nonpos _ N) in S. lia. }
  destruct (Z.log2_spec _ P) as [L _].
  replace (52 + Z.max 0 (Z.log2 (Qfloor a) - 52))%Z with (Z.log2 (Qfloor a)) by lia.
  apply Qle_trans with (inject_Z (Qfloor a)); [|apply Qfloor_le].
  now rewrite <- Zle_Qle.
Qed.

Lemma roundUnits_le (a : Q) :
  0 <= a -> (B64.roundUnits a <= 2 ^ (53 + B64.shift a))%Z.
Proof.
  intro A. unfold B64.roundUnits. cbv zeta.
  pose proof (shift_nonneg a) as S.
  rewrite Z.pow_add_r by lia.
  apply Z.mul_le_mono_nonneg_r; [apply Z.lt_le_incl, pow2_pos_strict, S|].
  rewrite <- (rne_int (2 ^ 53)). apply rne_mono.
  apply Qdiv_le_pow; [exact S|]. rewrite <- Z.pow_add_r by lia.
  apply Qlt_le_weak, below_shift, A.
Qed.

Lemma roundUnits_ge (a : Q) :
  (0 < B64.shift a)%Z -> (2 ^ (52 + B64.shift a) <= B64.roundUnits a)%Z.
Proof.
  intro S. unfold B64.roundUnits. cbv zeta.
  rewrite Z.pow_add_r by lia.
  apply Z.mul_le_mono_nonneg_r; [apply Z.lt_le_incl, pow2_pos_strict; lia|].
  rewrite <- (rne_int (2 ^ 52)). apply rne_mono.
  apply Qdiv_ge_pow; [lia|]. rewrite <- Z.pow_add_r by lia.
  apply above_shift, S.
Qed.

Lemma roundUnits_nonneg (a : Q) : 0 <= a -> (0 <= B64.roundUnits a)%Z.
Proof.
  intro A. unfold B64.roundUnits. cbv zeta.
  apply Z.mul_nonneg_nonneg; [|apply Z.lt_le_incl, pow2_pos_strict, shift_nonneg].
  rewrite <- (rne_int 0). apply rne_mono.
  apply Qle_shift_div_l; [apply pow2_pos, shift_nonneg|].
  change (inject_Z 0) with 0. lra.
Qed.

Lemma roundUnits_mono (a a' : Q) :
  0 <= a -> a <= a' -> (B64.roundUnits a <= B64.roundUnits a')%Z.
Proof.
  intros A L.
  pose proof (shift_mono _ _ L) as S.
  destruct (Z.eq_dec (B64.shift a) (B64.shift a')) as [E|N].
  - unfold B64.roundUnits. cbv zeta. rewrite <- E.
    apply Z.mul_le_mono_nonneg_r;
      [apply Z.lt_le_incl, pow2_pos_strict, shift_nonneg|].
    apply rne_mono. apply Qmult_le_compat_r; [exact L|].
    apply Qlt_le_weak, Qinv_lt_0_compat, pow2_pos, shift_nonneg.
  - pose proof (shift_nonneg a).
    assert (S' : (0 < B64.shift a')%Z) by lia.
    pose proof (roundUnits_le a A). pose proof (roundUnits_ge a' S').
    assert (2 ^ (53 + B64.shift a) <= 2 ^ (52 + B64.shift a'))%Z
      by (apply Z.pow_le_mono_r; lia).
    lia.
Qed.

#[export] Instance roundUnits_proper : Proper (Qeq ==> eq) B64.roundUnits.
Proof.
  intros a a' E. unfold B64.roundUnits, B64.shift. cbv zeta.
  rewrite (Qfloor_comp _ _ E). now rewrite E.
Qed.

(** A magnitude of at most 53 bits above a power of two is kept. *)
Lemma roundUnits_exact (m e : Z) :
  (0 <= m < 2 ^ 53)%Z -> (0 <= e)%Z ->
  B64.roundUnits (inject_Z (m * 2 ^ e)) = (m * 2 ^ e)%Z.
Proof.
  intros [M0 M] E. unfold B64.roundUnits. cbv zeta.
  set (s := B64.shift (inject_Z (m * 2 ^ e))).
  assert (S : (0 <= s <= e)%Z).
  { subst s. unfold B64.shift. rewrite Qfloor_Z. split; [lia|].
    destruct (Z.eq_dec m 0) as [->|N]; [rewrite Z.mul_0_l; cbn; lia|].
    assert (P : (0 < m * 2 ^ e)%Z)
      by (apply Z.mul_pos_pos; [lia|apply pow2_pos_strict, E]).
    assert (B : (m * 2 ^ e < 2 ^ (53 + e))%Z).
    { rewrite Z.pow_add_r by lia.
      apply Z.mul_lt_mono_pos_r; [apply pow2_pos_strict, E|exact M]. }
    apply Z.log2_lt_pow2 in B; [lia|exact P]. }
  assert (D : inject_Z (m * 2 ^ e) / inject_Z (2 ^ s)
              == inject_Z (m * 2 ^ (e - s))).
  { replace e with ((e - s) + s)%Z at 1 by lia.
    rewrite Z.pow_add_r by lia. rewrite Z.mul_assoc, inject_Z_mult.
    field. pose proof (pow2_pos s (proj1 S)). lra. }
  rewrite D, rne_int, <- Z.mul_assoc, <- Z.pow_add_r by lia.
  now replace (e - s + s)%Z with e by lia.
Qed.

(** *** Rounding a number *)

Lemma scale_pos : 0 < inject_Z B64.scale.
Proof. apply pow2_pos. lia. Qed.

Lemma rnd_val (x : Q) :
  B64.rnd x
  == inject_Z (if Qle_bool 0 x
               then B64.roundUnits (Qabs x * inject_Z B64.scale)
               else - B64.roundUnits (Qabs x * inject_Z B64.scale))
     / inject_Z B64.scale.
Proof. unfold B64.rnd. cbv zeta. apply Qred_correct. Qed.

Lemma rnd_proper (x y : Q) : x == y -> B64.rnd x = B64.rnd y.
Proof.
  intro E. unfold B64.rnd. cbv zeta. apply Qred_complete.
  assert (A : Qabs x * inject_Z B64.scale == Qabs y * inject_Z B64.scale)
    by now rewrite E.
  rewrite (roundUnits_proper _ _ A).
  assert (B : Qle_bool 0 x = Qle_bool 0 y) by now rewrite E.
  rewrite B. reflexivity.
Qed.

Lemma units_nonneg (x : Q) : 0 <= Qabs x * inject_Z B64.scale.
Proof.
  apply Qmult_le_0_compat; [apply Qabs_nonneg|apply Qlt_le_weak, scale_pos].
Qed.

Lemma units_mono (x y : Q) :
  Qabs x <= Qabs y -> Qabs x * inject_Z B64.scale <= Qabs y * inject_Z B64.scale.
Proof.
  intro L. apply Qmult_le_compat_r; [exact L|apply Qlt_le_weak, scale_pos].
Qed.

Lemma Qle_bool_false (x y : Q) : Qle_bool x y = false <-> y < x.
Proof. exact (leb_gt x y). Qed.

Lemma div_scale_mono (m n : Z) :
  (m <= n)%Z -> inject_Z m / inject_Z B64.scale <= inject_Z n / inject_Z B64.scale.
Proof.
  intro L. apply Qmult_le_compat_r; [now rewrite <- Zle_Qle|].
  apply Qlt_le_weak, Qinv_lt_0_compat, scale_pos.
Qed.

Lemma rnd_mono (x y : Q) : x <= y -> B64.rnd x <= B64.rnd y.
Proof.
  intro L. rewrite !rnd_val.
  pose proof (roundUnits_nonneg _ (units_nonneg x)) as Nx.
  pose proof (roundUnits_nonneg _ (units_nonneg y)) as Ny.
  destruct (Qle_bool 0 x) eqn:X; destruct (Qle_bool 0 y) eqn:Y.
  - apply Qle_bool_iff in X, Y. apply div_scale_mono, roundUnits_mono.
    + apply units_nonneg.
    + apply units_mono. rewrite !Qabs_pos by assumption. exact L.
  - apply Qle_bool_iff in X. apply Qle_bool_false in Y. lra.
  - apply div_scale_mono. lia.
  - apply Qle_bool_false in X, Y. apply div_scale_mono.
    assert (B64.roundUnits (Qabs y * inject_Z B64.scale)
            <= B64.roundUnits (Qabs x * inject_Z B64.scale))%Z; [|lia].
    apply roundUnits_mono; [apply units_nonneg|].
    apply units_mono. rewrite !Qabs_neg by lra. lra.
Qed.

Lemma rnd_nonneg (x : Q) : 0 <= x -> 0 <= B64.rnd x.
Proof.
  intro X. rewrite rnd_val. apply Qle_bool_iff in X. rewrite X.
  pose proof (roundUnits_nonneg _ (units_nonneg x)) as N.
  apply Qle_shift_div_l; [apply scale_pos|].
  rewrite Zle_Qle in N. change (inject_Z 0) with 0 in N. lra.
Qed.

(** A number of at most 53 bits above 2^-1074 is its own rounding. *)
Lemma rnd_exact_strict (x : Q) (m e : Z) :
  (Z.abs m < 2 ^ 53)%Z -> (0 <= e)%Z ->
  x * inject_Z B64.scale == inject_Z (m * 2 ^ e) ->
  B64.rnd x == x.
Proof.
  intros M E F. rewrite rnd_val.
  pose proof scale_pos as SP.
  pose proof (pow2_pos_strict e E) as PE.
  assert (V : x == inject_Z (m * 2 ^ e) / inject_Z B64.scale).
  { rewrite <- F. field. lra. }
  destruct (Qle_bool 0 x) eqn:X.
  - apply Qle_bool_iff in X.
    assert (M0 : (0 <= m)%Z).
    { assert (0 <= inject_Z (m * 2 ^ e)) as P.
      { rewrite <- F. apply Qmult_le_0_compat; lra. }
      change 0 with (inject_Z 0) in P. rewrite <- Zle_Qle in P. nia. }
    rewrite (Qabs_pos _ X), (roundUnits_proper _ _ F), roundUnits_exact by lia.
    symmetry. exact V.
  - apply Qle_bool_false in X.
    assert (M0 : (m < 0)%Z).
    { assert (inject_Z (m * 2 ^ e) < 0) as P.
      { rewrite <- F. setoid_replace 0 with (0 * inject_Z B64.scale) by ring.
        apply Qmult_lt_compat_r; lra. }
      change 0 with (inject_Z 0) in P. rewrite <- Zlt_Qlt in P. nia. }
    assert (F' : Qabs x * inject_Z B64.scale == inject_Z (- m * 2 ^ e)).
    { rewrite Qabs_neg by lra.
      replace (- m * 2 ^ e)%Z with (- (m * 2 ^ e))%Z by ring.
      rewrite inject_Z_opp, <- F. ring. }
    rewrite (roundUnits_proper _ _ F'), roundUnits_exact by lia.
    replace (- (- m * 2 ^ e))%Z with (m * 2 ^ e)%Z by ring.
    symmetry. exact V.
Qed.

Lemma rnd_exact (x : Q) (m e : Z) :
  (Z.abs m <= 2 ^ 53)%Z -> (0 <= e)%Z ->
  x * inject_Z B64.scale == inject_Z (m * 2 ^ e) ->
  B64.rnd x == x.
Proof.
  intros M E F.
  destruct (Z.eq_dec (Z.abs m) (2 ^ 53)) as [T|N].
  - apply (rnd_exact_strict x (m / 2) (e + 1)); [| lia |].
    + assert (D : (m = 2 ^ 53 \/ m = - 2 ^ 53)%Z) by lia.
      destruct D as [-> | ->]; reflexivity.
    + rewrite F. rewrite Z.pow_add_r by lia.
      assert (D : (m = 2 ^ 53 \/ m = - 2 ^ 53)%Z) by lia.
      destruct D as [-> | ->].
      * replace (2 ^ 53 / 2 * (2 ^ e * 2 ^ 1))%Z with (2 ^ 53 * 2 ^ e)%Z;
          [reflexivity|].
        change (2 ^ 53 / 2)%Z with (2 ^ 52)%Z. change (2 ^ 53)%Z with (2 ^ 52 * 2)%Z.
        change (2 ^ 1)%Z with 2%Z. ring.
      * replace (- 2 ^ 53 / 2 * (2 ^ e * 2 ^ 1))%Z with (- 2 ^ 53 * 2 ^ e)%Z;
          [reflexivity|].
        change (- 2 ^ 53 / 2)%Z with (- 2 ^ 52)%Z.
        change (- 2 ^ 53)%Z with (- 2 ^ 52 * 2)%Z.
        change (2 ^ 1)%Z with 2%Z. ring.
  - apply (rnd_exact_strict x m e); [lia|exact E|exact F].
Qed.

(** A rounding has at most 53 bits above 2^-1074. *)
Lemma rnd_form (x : Q) :
  exists m e : Z,
    (Z.abs m <= 2 ^ 53)%Z /\ (0 <= e)%Z
    /\ B64.rnd x * inject_Z B64.scale == inject_Z (m * 2 ^ e).
Proof.
  pose proof scale_pos as SP.
  set (a := Qabs x * inject_Z B64.scale).
  assert (A : 0 <= a) by apply units_nonneg.
  pose proof (shift_nonneg a) as S.
  assert (R : (0 <= B64.rne (a / inject_Z (2 ^ B64.shift a)) <= 2 ^ 53)%Z).
  { split.
    - rewrite <- (rne_int 0). apply rne_mono.
      apply Qle_shift_div_l; [apply pow2_pos, S|].
      change (inject_Z 0) with 0. lra.
    - rewrite <- (rne_int (2 ^ 53)). apply rne_mono.
      apply Qdiv_le_pow; [exact S|]. rewrite <- Z.pow_add_r by lia.
      apply Qlt_le_weak, below_shift, A. }
  assert (V : forall n : Z,
             inject_Z n / inject_Z B64.scale * inject_Z B64.scale == inject_Z n).
  { intro n. field. lra. }
  pose proof (rnd_val x) as RV. fold a in RV.
  unfold B64.roundUnits in RV. cbv zeta in RV.
  destruct (Qle_bool 0 x).
  - exists (B64.rne (a / inject_Z (2 ^ B64.shift a))), (B64.shift a).
    split; [lia|]. split; [exact S|]. rewrite RV. apply V.
  - exists (- B64.rne (a / inject_Z (2 ^ B64.shift a)))%Z, (B64.shift a).
    split; [lia|]. split; [exact S|]. rewrite RV, V.
    now replace (- B64.rne (a / inject_Z (2 ^ B64.shift a)) * 2 ^ B64.shift a)%Z
      with (- (B64.rne (a / inject_Z (2 ^ B64.shift a)) * 2 ^ B64.shift a))%Z
      by ring.
Qed.

Lemma rep_rnd (x : Q) : B64.rep (B64.rnd x).
Proof.
  destruct (rnd_form x) as (m & e & M & E & F).
  exact (rnd_exact _ m e M E F).
Qed.

Lemma rep_form (x : Q) :
  B64.rep x ->
  exists m e : Z,
    (Z.abs m <= 2 ^ 53)%Z /\ (0 <= e)%Z
    /\ x * inject_Z B64.scale == inject_Z (m * 2 ^ e).
Proof.
  intro R. destruct (rnd_form x) as (m & e & M & E & F).
  exists m, e. split; [exact M|]. split; [exact E|].
  unfold B64.rep in R. now rewrite <- R.
Qed.

#[export] Instance rep_proper : Proper (Qeq ==> iff) B64.rep.
Proof.
  intros x y E. unfold B64.rep. rewrite (rnd_proper x y E). now rewrite E.
Qed.

Lemma rep_dyadic (n k : Z) :
  (Z.abs n <= 2 ^ 53)%Z -> (0 <= k <= 1074)%Z ->
  B64.rep (inject_Z n / inject_Z (2 ^ k)).
Proof.
  intros N K. apply (rnd_exact _ n (1074 - k)); [exact N|lia|].
  unfold B64.scale. replace 1074%Z with ((1074 - k) + k)%Z at 1 by lia.
  rewrite Z.pow_add_r by lia. rewrite !inject_Z_mult.
  field. pose proof (pow2_pos k (proj1 K)). lra.
Qed.

Lemma rep_int (n : Z) : (Z.abs n <= 2 ^ 53)%Z -> B64.rep (inject_Z n).
Proof.
  intro N. assert (E : inject_Z n == inject_Z n / inject_Z (2 ^ 0))
    by (change (inject_Z (2 ^ 0)) with 1; field).
  rewrite E. apply rep_dyadic; [exact N|lia].
Qed.

Lemma rep_double (x : Q) : B64.rep x -> B64.rep (x * 2).
Proof.
  intro R. destruct (rep_form x R) as (m & e & M & E & F).
  apply (rnd_exact _ m (e + 1)); [exact M|lia|].
  rewrite Z.pow_add_r by lia. change (2 ^ 1)%Z with 2%Z.
  rewrite Z.mul_assoc, inject_Z_mult, <- F. change (inject_Z 2) with 2. ring.
Qed.

(** A value of the format is a whole number of units of 2^-1074. *)
Lemma rep_units (x : Q) :
  B64.rep x -> exists n : Z, x * inject_Z B64.scale == inject_Z n.
Proof. intro R. destruct (rep_form x R) as (m & e & _ & _ & F). eauto. Qed.

(** Rounding keeps a number on the side of a value of the format where it
    is. *)
Lemma rnd_le_rep (x r : Q) : B64.rep r -> x <= r -> B64.rnd x <= r.
Proof.
  intros R L. apply Qle_trans with (B64.rnd r); [now apply rnd_mono|].
  unfold B64.rep in R. apply Qle_lteq. now right.
Qed.

Lemma rnd_ge_rep (x r : Q) : B64.rep r -> r <= x -> r <= B64.rnd x.
Proof.
  intros R L. apply Qle_trans with (B64.rnd r); [|now apply rnd_mono].
  unfold B64.rep in R. apply Qle_lteq. right. now symmetry.
Qed.

(** *** Numbers and their operations *)

Lemma huge_pos : 0 < B64.huge.
Proof. apply pow2_pos. lia. Qed.

Lemma ofQ_proper (x y : Q) : x == y -> B64.ofQ x = B64.ofQ y.
Proof.
  intro E. unfold B64.ofQ. cbv zeta. rewrite (rnd_proper x y E).
  assert (B : Qle_bool 0 x = Qle_bool 0 y) by now rewrite E.
  now rewrite B.
Qed.

Lemma rnd_nonpos (x : Q) : x <= 0 -> B64.rnd x <= 0.
Proof.
  intro X. apply rnd_le_rep; [|exact X].
  change 0 with (inject_Z 0). apply rep_int. cbn. lia.
Qed.

(** The three outcomes of a rounding. *)
Lemma ofQ_cases (x : Q) :
  B64.ofQ x = B64.Fin (B64.rnd x) /\ Qabs (B64.rnd x) < B64.huge
  \/ B64.ofQ x = B64.Inf false /\ B64.huge <= B64.rnd x /\ 0 <= x
  \/ B64.ofQ x = B64.Inf true /\ B64.rnd x <= - B64.huge /\ x < 0.
Proof.
  unfold B64.ofQ. cbv zeta. pose proof huge_pos as HP.
  destruct (Qle_bool B64.huge (Qabs (B64.rnd x))) eqn:O.
  - apply Qle_bool_iff in O. destruct (Qle_bool 0 x) eqn:X.
    + apply Qle_bool_iff in X. right. left.
      pose proof (rnd_nonneg x X). rewrite Qabs_pos in O by assumption. auto.
    + apply Qle_bool_false in X. right. right.
      assert (N : B64.rnd x <= 0) by (apply rnd_nonpos; lra).
      rewrite Qabs_neg in O by assumption.
      split; [reflexivity|]. split; lra.
  - apply Qle_bool_false in O. left. auto.
Qed.

Lemma ofQ_between (x lo hi : Q) :
  B64.rep lo -> B64.rep hi -> lo <= x <= hi -> - B64.huge < lo -> hi < B64.huge ->
  B64.ofQ x = B64.Fin (B64.rnd x) /\ lo <= B64.rnd x <= hi.
Proof.
  intros Rlo Rhi [L H] Blo Bhi.
  pose proof (rnd_ge_rep x lo Rlo L). pose proof (rnd_le_rep x hi Rhi H).
  destruct (ofQ_cases x) as [[E _]|[[_ [O _]]|[_ [O _]]]];
    [auto|exfalso; lra|exfalso; lra].
Qed.

Lemma lit_0 : B64.lit 0 = B64.Fin 0.
Proof. vm_compute. reflexivity. Qed.
Lemma lit_1 : B64.lit 1 = B64.Fin 1.
Proof. vm_compute. reflexivity. Qed.
Lemma lit_2 : B64.lit 2 = B64.Fin 2.
Proof. vm_compute. reflexivity. Qed.
Lemma lit_2_0 : B64.lit 2.0 = B64.Fin 2.
Proof. vm_compute. reflexivity. Qed.
Lemma lit_10 : B64.lit 10 = B64.Fin 10.
Proof. vm_compute. reflexivity. Qed.
Lemma lit_24 : B64.lit 24 = B64.Fin 24.
Proof. vm_compute. reflexivity. Qed.

Lemma rep_small_int (n : Z) : (Z.abs n <= 1000)%Z -> B64.rep (inject_Z n).
Proof.
  intro N. apply rep_int.
  assert (1000 <= 2 ^ 53)%Z by (vm_compute; discriminate). lia.
Qed.

(** The water density of the correction is a value of the format between
    one half and one. *)
Lemma waterDensityAt_value (temp : B64.num) :
  exists c,
    B64.waterDensityAt temp = B64.Fin c /\ B64.rep c /\ 1 # 2 <= c <= 1.
Proof.
  assert (A : B64.lit 0.9997 = B64.Fin (B64.rnd 0.9997)) by (vm_compute; reflexivity).
  assert (B : B64.lit 0.9957 = B64.Fin (B64.rnd 0.9957)) by (vm_compute; reflexivity).
  assert (C : B64.lit 1.0 = B64.Fin (B64.rnd 1.0)) by (vm_compute; reflexivity).
  assert (A' : 1 # 2 <= B64.rnd 0.9997 <= 1) by (vm_compute; split; discriminate).
  assert (B' : 1 # 2 <= B64.rnd 0.9957 <= 1) by (vm_compute; split; discriminate).
  assert (C' : 1 # 2 <= B64.rnd 1.0 <= 1) by (vm_compute; split; discriminate).
  unfold B64.waterDensityAt.
  destruct (negb (B64.isNaN temp));
    [destruct (B64.ltb temp (B64.lit 10));
     [|destruct (B64.gtb temp (B64.lit 30))]|];
    eexists; (split; [eassumption|]); (split; [apply rep_rnd|assumption]).
Qed.

(** *** The volume and the density *)

(** The difference of two values of the format, the larger first, rounds to
    a positive value of the format that is at most the larger one. *)
Lemma sub_positive (a w : Q) :
  B64.finite a -> B64.rep w -> 0 < w -> w < a ->
  exists x,
    B64.sub (B64.Fin a) (B64.Fin w) = B64.Fin x
    /\ B64.rep x /\ 0 < x <= a.
Proof.
  intros [Ra Ba] Rw W AW.
  pose proof scale_pos as SP.
  destruct (rep_units a Ra) as [na Ea]. destruct (rep_units w Rw) as [nw Ew].
  assert (U : B64.rep (1 / inject_Z B64.scale)).
  { change 1 with (inject_Z 1). apply rep_dyadic; cbn; lia. }
  assert (G : 1 / inject_Z B64.scale <= a + - w).
  { assert (N : (nw < na)%Z).
    { rewrite Zlt_Qlt, <- Ea, <- Ew. apply Qmult_lt_compat_r; assumption. }
    assert (N' : inject_Z 1 <= inject_Z (na - nw)) by (rewrite <- Zle_Qle; lia).
    apply Qle_shift_div_r; [exact SP|].
    unfold Z.sub in N'. rewrite inject_Z_plus, inject_Z_opp, <- Ea, <- Ew in N'.
    change (inject_Z 1) with 1 in N'. lra. }
  assert (P : 0 < 1 / inject_Z B64.scale) by (apply Qdiv_pos; lra).
  rewrite Qabs_pos in Ba by lra.
  destruct (ofQ_between (a + - w) (1 / inject_Z B64.scale) a U Ra) as [E [L H]];
    [split; lra|lra|exact Ba|].
  exists (B64.rnd (a + - w)). unfold B64.sub, B64.neg, B64.add.
  split; [exact E|]. split; [apply rep_rnd|]. split; lra.
Qed.

Lemma isZero_false (q : Q) : ~ q == 0 -> B64.isZero q = false.
Proof.
  intro N. unfold B64.isZero. destruct (Qeq_bool q 0) eqn:E; [|reflexivity].
  apply Qeq_bool_iff in E. contradiction.
Qed.

(** The quotient of a positive value of the format by the water density is
    positive: a value between the dividend and its double, or +Infinity. *)
Lemma div_by_waterDensity (x c : Q) :
  B64.rep x -> 0 < x -> 1 # 2 <= c <= 1 ->
  (exists v, B64.div (B64.Fin x) (B64.Fin c) = B64.Fin v
             /\ B64.rep v /\ x <= v <= x * 2)
  \/ B64.div (B64.Fin x) (B64.Fin c) = B64.Inf false.
Proof.
  intros Rx X [C1 C2]. unfold B64.div.
  rewrite isZero_false by lra.
  assert (Lo : x <= x / c).
  { apply Qle_shift_div_l; [lra|].
    setoid_replace x with (x * 1) at 2 by ring.
    apply Qmult_le_l; lra. }
  assert (Hi : x / c <= x * 2).
  { apply Qle_shift_div_r; [lra|].
    setoid_replace x with (x * 1) at 1 by ring.
    rewrite <- Qmult_assoc. apply Qmult_le_l; lra. }
  destruct (ofQ_cases (x / c)) as [[E _]|[[E _]|[_ [_ N]]]].
  - left. exists (B64.rnd (x / c)). split; [exact E|]. split; [apply rep_rnd|].
    split; [now apply rnd_ge_rep|apply rnd_le_rep; [now apply rep_double|exact Hi]].
  - right. exact E.
  - exfalso. lra.
Qed.

(** The quotient of a positive number by a positive number that is at most
    its double is at least one half. *)
Lemma div_at_least_half (a v : Q) :
  0 < a -> 0 < v <= a * 2 ->
  B64.leb (B64.Fin (1 # 2)) (B64.div (B64.Fin a) (B64.Fin v)) = true.
Proof.
  intros A [V0 V]. unfold B64.div. rewrite isZero_false by lra.
  assert (H : 1 # 2 <= a / v) by (apply Qle_shift_div_l; lra).
  assert (R : B64.rep (1 # 2)).
  { assert (E : 1 # 2 == inject_Z 1 / inject_Z (2 ^ 1)) by reflexivity.
    rewrite E. apply rep_dyadic; cbn; lia. }
  pose proof (rnd_ge_rep _ _ R H) as G.
  destruct (ofQ_cases (a / v)) as [[E _]|[[E _]|[_ [_ N]]]]; rewrite ?E.
  - cbn. now apply Qle_bool_iff.
  - reflexivity.
  - exfalso. lra.
Qed.

(** C9.  On binary64 numbers, when airWeight and waterWeight are finite,
    airWeight > 0, waterWeight > 0 and airWeight > waterWeight, the handler
    reaches [setResult] and shows no alert: the volume (airWeight -
    waterWeight) / waterDensity is > 0, where +Infinity, which a quotient by
    a water density below 1 overflows to, counts as > 0.  The density is
    airWeight / volume; it is at least 0.5, so > 0, when the volume is
    finite, and it is 0 when the volume is +Infinity. *)
Theorem volume_and_density_on_binary64 (a w : Q) (temp : B64.num) :
  B64.finite a -> B64.finite w ->
  0 < a -> 0 < w -> w < a ->
  exists l,
    B64.calculatePurity_locals (B64.Fin a) (B64.Fin w) temp = Done l
    /\ B64.Locals.volume l
       = B64.div (B64.sub (B64.Fin a) (B64.Fin w)) (B64.waterDensityAt temp)
    /\ B64.ltb (B64.Fin 0) (B64.Locals.volume l) = true
    /\ B64.Locals.density l = B64.div (B64.Fin a) (B64.Locals.volume l)
    /\ ((exists v, B64.Locals.volume l = B64.Fin v) ->
        B64.leb (B64.Fin (1 # 2)) (B64.Locals.density l) = true
        /\ B64.ltb (B64.Fin 0) (B64.Locals.density l) = true)
    /\ (B64.Locals.volume l = B64.Inf false ->
        B64.Locals.density l = B64.Fin 0).
Proof.
  intros Fa [Rw _] A W AW.
  destruct (sub_positive a w Fa Rw W AW) as (x & Es & Rx & X0 & Xa).
  destruct (waterDensityAt_value temp) as (c & Ec & Rc & C).
  unfold B64.calculatePurity_locals.
  rewrite lit_0. cbn [B64.isNaN B64.leb orb].
  pose proof A as A0.
  apply Qle_bool_false in A as ->. apply Qle_bool_false in W as ->.
  pose proof AW as AW'. apply Qle_bool_false in AW' as ->.
  cbv zeta. rewrite Es, Ec.
  destruct (div_by_waterDensity x c Rx X0 C) as [(v & Ev & Rv & V1 & V2)|Ev];
    rewrite Ev; cbn [B64.leb].
  - assert (V0 : 0 < v) by lra.
    pose proof V0 as V0'. apply Qle_bool_false in V0' as ->.
    eexists. split; [reflexivity|]. cbn [B64.Locals.volume B64.Locals.density].
    split; [reflexivity|]. split; [cbn; now apply negb_true_iff, Qle_bool_false|].
    split; [reflexivity|]. split; [|discriminate].
    intros _.
    assert (H : B64.leb (B64.Fin (1 # 2)) (B64.div (B64.Fin a) (B64.Fin v)) = true).
    { apply div_at_least_half; [exact A0|]. split; [exact V0|]. lra. }
    split; [exact H|].
    destruct (B64.div (B64.Fin a) (B64.Fin v)) as [|[]|d]; cbn in *;
      try discriminate; try reflexivity.
    apply Qle_bool_iff in H. apply negb_true_iff, Qle_bool_false. lra.
  - eexists. split; [reflexivity|]. cbn [B64.Locals.volume B64.Locals.density].
    split; [reflexivity|]. split; [reflexivity|]. split; [reflexivity|].
    split; [intros [v E]; discriminate E|]. intros _. reflexivity.
Qed.

Lemma volume_and_density_on_binary64_at_scenario_1 :
  exists l,
    B64.calculatePurity_locals
      (B64.Fin (B64.rnd 10.50)) (B64.Fin (B64.rnd 9.80)) (B64.lit 20) = Done l
    /\ B64.ltb (B64.Fin 0) (B64.Locals.volume l) = true
    /\ B64.ltb (B64.Fin 0) (B64.Locals.density l) = true.
Proof.
  assert (Fa : B64.finite (B64.rnd 10.50))
    by (split; [apply rep_rnd|vm_compute; reflexivity]).
  assert (Fw : B64.finite (B64.rnd 9.80))
    by (split; [apply rep_rnd|vm_compute; reflexivity]).
  assert (A : 0 < B64.rnd 10.50) by (vm_compute; reflexivity).
  assert (W : 0 < B64.rnd 9.80) by (vm_compute; reflexivity).
  assert (AW : B64.rnd 9.80 < B64.rnd 10.50) by (vm_compute; reflexivity).
  destruct (volume_and_density_on_binary64 _ _ (B64.lit 20) Fa Fw A W AW)
    as (l & E & Ev & V & _ & D & _).
  exists l. split; [exact E|]. split; [exact V|].
  apply D. rewrite Ev. vm_compute. eexists. reflexivity.
Defined.

(** With an air weight near the top of the binary64 range and a water density
    below 1 the volume overflows to +Infinity and the density is 0. *)
Lemma density_is_zero_when_the_volume_overflows :
  exists a l,
    B64.lit 1.79e308 = B64.Fin a
    /\ 0 < a /\ 1 < a
    /\ B64.calculatePurity_locals (B64.Fin a) (B64.Fin 1) (B64.lit 35) = Done l
    /\ B64.Locals.volume l = B64.Inf false
    /\ B64.Locals.density l = B64.Fin 0
    /\ B64.ltb (B64.Fin 0) (B64.Locals.density l) = false
    /\ density (B64.resultOf l) = "0.00".
Proof.
  eexists. eexists.
  split; [vm_compute; reflexivity|].
  split; [vm_compute; reflexivity|].
  split; [vm_compute; reflexivity|].
  split; [vm_compute; reflexivity|].
  repeat split.
Qed.

(** *** The reconciler *)

Lemma sub_Fin (a b : Q) : B64.sub (B64.Fin a) (B64.Fin b) = B64.ofQ (a - b).
Proof. reflexivity. Qed.

Lemma add_Fin (a b : Q) : B64.add (B64.Fin a) (B64.Fin b) = B64.ofQ (a + b).
Proof. reflexivity. Qed.

Lemma rep_0 : B64.rep 0.
Proof. change 0 with (inject_Z 0). apply rep_small_int. cbn. lia. Qed.

Lemma rep_24 : B64.rep 24.
Proof. change 24 with (inject_Z 24). apply rep_small_int. cbn. lia. Qed.

(** [clamp] of a rounded number to [0, 24]. *)
Lemma clamp_ofQ (x : Q) :
  exists c,
    B64.clamp (B64.ofQ x) (B64.lit 0) (B64.lit 24) = B64.Fin c
    /\ c == Spec.clampTo 0 24 (B64.rnd x)
    /\ B64.rep c /\ 0 <= c <= 24.
Proof.
  rewrite lit_0, lit_24. unfold B64.clamp, Spec.clampTo.
  assert (H24 : 24 < B64.huge) by reflexivity.
  destruct (ofQ_cases x) as [[E _]|[[E [O _]]|[E [O _]]]]; rewrite E.
  - unfold B64.max, B64.min. cbn [B64.isNaN orb B64.ltb].
    destruct (Qle_bool (B64.rnd x) 0) eqn:Z; cbn [negb B64.isNaN orb B64.ltb].
    + apply Qle_bool_iff in Z.
      assert (F : Qle_bool 24 0 = false) by reflexivity. rewrite F. cbn [negb].
      exists 0. split; [reflexivity|].
      destruct (Qlt_le_dec (B64.rnd x) 0).
      * split; [reflexivity|]. split; [exact rep_0|]. split; discriminate.
      * destruct (Qlt_le_dec 24 (B64.rnd x)); [exfalso; lra|].
        split; [lra|]. split; [exact rep_0|]. split; discriminate.
    + apply Qle_bool_false in Z.
      destruct (Qlt_le_dec (B64.rnd x) 0); [exfalso; lra|].
      destruct (Qle_bool 24 (B64.rnd x)) eqn:G; cbn [negb].
      * apply Qle_bool_iff in G. exists 24. split; [reflexivity|].
        destruct (Qlt_le_dec 24 (B64.rnd x)).
        -- split; [reflexivity|]. split; [exact rep_24|]. split; discriminate.
        -- split; [lra|]. split; [exact rep_24|]. split; discriminate.
      * apply Qle_bool_false in G. exists (B64.rnd x). split; [reflexivity|].
        destruct (Qlt_le_dec 24 (B64.rnd x)); [exfalso; lra|].
        split; [reflexivity|]. split; [apply rep_rnd|]. split; lra.
  - unfold B64.max, B64.min. cbn [B64.isNaN orb B64.ltb negb].
    exists 24. split; [reflexivity|].
    destruct (Qlt_le_dec (B64.rnd x) 0); [exfalso; pose proof huge_pos; lra|].
    destruct (Qlt_le_dec 24 (B64.rnd x)); [|exfalso; lra].
    split; [reflexivity|]. split; [exact rep_24|]. split; discriminate.
  - unfold B64.max, B64.min. cbn [B64.isNaN orb B64.ltb negb].
    exists 0. split; [reflexivity|].
    destruct (Qlt_le_dec (B64.rnd x) 0); [|exfalso; pose proof huge_pos; lra].
    split; [reflexivity|]. split; [exact rep_0|]. split; discriminate.
Qed.

Lemma min_Fin (a b : Q) :
  exists c, B64.min (B64.Fin a) (B64.Fin b) = B64.Fin c
            /\ c == Qmin a b /\ (c = a \/ c = b).
Proof.
  unfold B64.min. cbn [B64.isNaN orb B64.ltb].
  destruct (Qle_bool a b) eqn:L; cbn [negb].
  - apply Qle_bool_iff in L. exists a. split; [reflexivity|].
    split; [symmetry; now apply Q.min_l|now left].
  - apply Qle_bool_false in L. exists b. split; [reflexivity|].
    split; [symmetry; apply Q.min_r; lra|now right].
Qed.

Lemma max_Fin (a b : Q) :
  exists c, B64.max (B64.Fin a) (B64.Fin b) = B64.Fin c
            /\ c == Qmax a b /\ (c = a \/ c = b).
Proof.
  unfold B64.max. cbn [B64.isNaN orb B64.ltb].
  destruct (Qle_bool b a) eqn:L; cbn [negb].
  - apply Qle_bool_iff in L. exists a. split; [reflexivity|].
    split; [symmetry; now apply Q.max_l|now left].
  - apply Qle_bool_false in L. exists b. split; [reflexivity|].
    split; [symmetry; apply Q.max_r; lra|now right].
Qed.

(** On a value of the format between 0 and 24 the three steps of [roundHalf]
    are exact. *)
Lemma roundHalf_Fin (v : Q) :
  B64.rep v -> 0 <= v <= 24 ->
  exists r, B64.roundHalf (B64.Fin v) = B64.Fin r /\ r == roundHalf v.
Proof.
  intros R [V0 V24]. unfold B64.roundHalf. rewrite lit_2.
  assert (H48 : 48 < B64.huge) by reflexivity.
  assert (R48 : B64.rep 48)
    by (change 48 with (inject_Z 48); apply rep_small_int; cbn; lia).
  unfold B64.mul.
  destruct (ofQ_between (v * 2) 0 48 rep_0 R48) as [E _];
    [split; lra|pose proof huge_pos; lra|exact H48|].
  rewrite E. cbn [B64.round].
  pose proof (rep_double v R) as D. unfold B64.rep in D.
  set (n := Qfloor (B64.rnd (v * 2) + (1 # 2))).
  assert (N : n = Qfloor (v * 2 + (1 # 2))).
  { subst n. apply Qfloor_comp. now rewrite D. }
  assert (B : (0 <= n <= 48)%Z).
  { rewrite N. split.
    - apply floor_ge. change (inject_Z 0) with 0. lra.
    - assert (Qfloor (v * 2 + (1 # 2)) <= Qfloor (inject_Z 48 + (1 # 2)))%Z
        by (apply Qfloor_resp_le; change (inject_Z 48) with 48; lra).
      assert (Qfloor (inject_Z 48 + (1 # 2)) = 48%Z) by reflexivity.
      lia. }
  unfold B64.div. rewrite isZero_false by discriminate.
  assert (Rh : B64.rep (inject_Z n / 2)).
  { assert (E2 : inject_Z n / 2 == inject_Z n / inject_Z (2 ^ 1)) by reflexivity.
    rewrite E2. apply rep_dyadic; [|lia].
    assert (48 <= 2 ^ 53)%Z by (vm_compute; discriminate). lia. }
  assert (Bh : 0 <= inject_Z n / 2 <= 48).
  { destruct B as [B0 B48]. rewrite Zle_Qle in B0, B48.
    change (inject_Z 0) with 0 in B0. change (inject_Z 48) with 48 in B48.
    const_div. split; lra. }
  destruct (ofQ_between (inject_Z n / 2) 0 48 rep_0 R48 Bh) as [E' _];
    [pose proof huge_pos; lra|exact H48|].
  rewrite E'. eexists. split; [reflexivity|].
  unfold B64.rep in Rh. rewrite Rh. unfold roundHalf, Js.round. rewrite N. reflexivity.
Qed.

Lemma gtb_Fin_false (a b : Q) : a <= b -> B64.gtb (B64.Fin a) (B64.Fin b) = false.
Proof.
  intro L. unfold B64.gtb. cbn. apply Qle_bool_iff in L. now rewrite L.
Qed.

(** What [computeFinalRange] returns for a finite percent estimate and a
    finite or absent density estimate: the two merged bounds, rounded, with
    the swap idle. *)
Lemma computeFinalRange_on_binary64 (kp : Q) (kd : option Q) :
  exists lo0 hi0 lo hi,
    B64.minK (B64.computeFinalRange (B64.Fin kp) (option_map B64.Fin kd))
    = B64.Fin lo
    /\ B64.maxK (B64.computeFinalRange (B64.Fin kp) (option_map B64.Fin kd))
       = B64.Fin hi
    /\ lo == roundHalf lo0 /\ hi == roundHalf hi0
    /\ lo0 == fst (Spec64.merged kp kd) /\ hi0 == snd (Spec64.merged kp kd)
    /\ lo0 <= hi0 /\ 0 <= lo0 /\ hi0 <= 24.
Proof.
  destruct (clamp_ofQ (kp - 1)) as (p1 & Ep1 & Vp1 & Rp1 & Bp1).
  destruct (clamp_ofQ (kp + 1)) as (p2 & Ep2 & Vp2 & Rp2 & Bp2).
  assert (B : 0 <= 24) by lra.
  assert (P : p1 <= p2).
  { rewrite Vp1, Vp2, !clampTo_clamp by exact B.
    apply clamp_mono; [exact B|]. apply rnd_mono. lra. }
  unfold B64.computeFinalRange.
  rewrite lit_1, sub_Fin, add_Fin, <- lit_1, Ep1, Ep2.
  destruct kd as [kd|]; cbn [option_map]; cbv beta iota zeta.
  - destruct (clamp_ofQ (kd - 1)) as (d1 & Ed1 & Vd1 & Rd1 & Bd1).
    destruct (clamp_ofQ (kd + 1)) as (d2 & Ed2 & Vd2 & Rd2 & Bd2).
    rewrite lit_1, sub_Fin, add_Fin, Ed1, Ed2.
    destruct (min_Fin p1 d1) as (lo0 & Emin & Vmin & Cmin).
    destruct (max_Fin p2 d2) as (hi0 & Emax & Vmax & Cmax).
    rewrite Emin, Emax.
    assert (Rlo : B64.rep lo0 /\ 0 <= lo0 <= 24)
      by (destruct Cmin as [-> | ->]; auto).
    assert (Rhi : B64.rep hi0 /\ 0 <= hi0 <= 24)
      by (destruct Cmax as [-> | ->]; auto).
    destruct Rlo as [Rlo Blo]. destruct Rhi as [Rhi Bhi].
    destruct (roundHalf_Fin lo0 Rlo Blo) as (lo & Elo & Vlo).
    destruct (roundHalf_Fin hi0 Rhi Bhi) as (hi & Ehi & Vhi).
    assert (L : lo0 <= hi0).
    { rewrite Vmin, Vmax.
      pose proof (Q.le_min_l p1 d1). pose proof (Q.le_max_l p2 d2). lra. }
    rewrite Elo, Ehi, gtb_Fin_false
      by (rewrite Vlo, Vhi; now apply roundHalf_mono).
    cbn [B64.minK B64.maxK].
    exists lo0, hi0, lo, hi. repeat split; try assumption; try reflexivity;
      try lra.
    + unfold Spec64.merged, Spec64.padded. cbn [fst snd].
      now rewrite Vmin, Vp1, Vd1.
    + unfold Spec64.merged, Spec64.padded. cbn [fst snd].
      now rewrite Vmax, Vp2, Vd2.
  - destruct (roundHalf_Fin p1 Rp1 Bp1) as (lo & Elo & Vlo).
    destruct (roundHalf_Fin p2 Rp2 Bp2) as (hi & Ehi & Vhi).
    rewrite Elo, Ehi, gtb_Fin_false
      by (rewrite Vlo, Vhi; now apply roundHalf_mono).
    cbn [B64.minK B64.maxK].
    exists p1, p2, lo, hi. repeat split; try assumption; try reflexivity;
      try lra.
Qed.

(** C2.  For every karatFromPercent in [0,24] and every finite
    karatFromDensity or null, the bounds [computeFinalRange] returns on
    binary64 numbers are those of the merged interval (the padded interval
    of the percent estimate clamped to [0,24], widened by min and max with
    the one of the density estimate when it is present), each rounded to
    the nearest 0.5 by rounding its double half up and halving, where the
    padded bounds k - 1 and k + 1 are the binary64 sums, that is, the exact
    sums rounded to the format.  Clamping, merging and the rounding to 0.5
    are exact. *)
Theorem computeFinalRange_merges_binary64_sums (kp : Q) (kd : option Q) :
  0 <= kp <= 24 ->
  exists lo hi,
    B64.minK (B64.computeFinalRange (B64.Fin kp) (option_map B64.Fin kd))
    = B64.Fin lo
    /\ B64.maxK (B64.computeFinalRange (B64.Fin kp) (option_map B64.Fin kd))
       = B64.Fin hi
    /\ Spec.nearestHalf (fst (Spec64.merged kp kd)) lo
    /\ Spec.nearestHalf (snd (Spec64.merged kp kd)) hi.
Proof.
  intros _.
  destruct (computeFinalRange_on_binary64 kp kd)
    as (lo0 & hi0 & lo & hi & Elo & Ehi & Vlo & Vhi & Mlo & Mhi & _).
  exists lo, hi. split; [exact Elo|]. split; [exact Ehi|].
  split.
  - destruct (nearestHalf_roundHalf _ lo0 (Qeq_sym _ _ Mlo)) as (n & A & B).
    exists n. split; [exact A|]. now rewrite Vlo.
  - destruct (nearestHalf_roundHalf _ hi0 (Qeq_sym _ _ Mhi)) as (n & A & B).
    exists n. split; [exact A|]. now rewrite Vhi.
Qed.

Lemma computeFinalRange_merges_binary64_sums_below_7_25 :
  0 <= Inputs.belowQuarter <= 24
  /\ exists lo hi,
      B64.minK (B64.computeFinalRange (B64.Fin Inputs.belowQuarter) None)
      = B64.Fin lo
      /\ B64.maxK (B64.computeFinalRange (B64.Fin Inputs.belowQuarter) None)
         = B64.Fin hi
      /\ Spec.nearestHalf (fst (Spec64.merged Inputs.belowQuarter None)) lo
      /\ Spec.nearestHalf (snd (Spec64.merged Inputs.belowQuarter None)) hi.
Proof.
  assert (H : 0 <= Inputs.belowQuarter <= 24) by (split; vm_compute; discriminate).
  split; [exact H|].
  exact (computeFinalRange_merges_binary64_sums Inputs.belowQuarter None H).
Defined.

(** For the binary64 number 2^-50 below 7.25 the sum with 1 is rounded to
    8.25, and the upper bound returned is 8.5; the nearest half of the exact
    sum is 8. *)
Lemma upper_bound_of_the_rounded_sum :
  B64.rep Inputs.belowQuarter
  /\ 0 <= Inputs.belowQuarter <= 24
  /\ exists r,
      B64.maxK (B64.computeFinalRange (B64.Fin Inputs.belowQuarter) None)
      = B64.Fin r
      /\ r == 8.5
      /\ ~ Spec.nearestHalf (snd (Spec.merged Inputs.belowQuarter None)) r
      /\ Spec.nearestHalf (snd (Spec.merged Inputs.belowQuarter None)) 8.
Proof.
  split; [vm_compute; reflexivity|].
  split; [split; vm_compute; discriminate|].
  eexists. split; [vm_compute; reflexivity|].
  split; [reflexivity|].
  assert (V : snd (Spec.merged Inputs.belowQuarter None) * 2 + (1 # 2) < 17)
    by (vm_compute; reflexivity).
  assert (V' : 16 < snd (Spec.merged Inputs.belowQuarter None) * 2 + (1 # 2))
    by (vm_compute; reflexivity).
  split.
  - intros (n & [_ B] & E).
    assert (N : inject_Z n == 17) by (const_div; lra).
    lra.
  - exists 16%Z. split; [|reflexivity]. split.
    + change (inject_Z 16) with 16. lra.
    + change (inject_Z 16) with 16. lra.
Qed.

(** *** The consistency check *)

Lemma deltaRounded_Fin (kp kd : B64.num) (p : Q) :
  B64.mul (B64.abs (B64.sub kp kd)) (B64.lit 10) = B64.Fin p ->
  B64.deltaRounded kp kd = B64.ofQ (inject_Z (Qfloor (p + (1 # 2))) / 10).
Proof.
  intro E. unfold B64.deltaRounded. cbv zeta. rewrite E. cbn [B64.round].
  rewrite lit_10. unfold B64.div. now rewrite isZero_false by discriminate.
Qed.

Lemma getDeltaIndicator_label_on_binary64 (kp kd : B64.num) :
  (dLabel (B64.getDeltaIndicator kp (Some kd)) = "WASPADA"
   <-> B64.geb (B64.deltaRounded kp kd) (B64.lit 2.0) = true)
  /\ (dLabel (B64.getDeltaIndicator kp (Some kd)) = "OK"
      <-> B64.geb (B64.deltaRounded kp kd) (B64.lit 2.0) = false).
Proof.
  unfold B64.getDeltaIndicator. cbv zeta.
  destruct (B64.geb (B64.deltaRounded kp kd) (B64.lit 2.0)); cbn [dLabel];
    split; split; intro; try discriminate; reflexivity.
Qed.

Lemma rep_2 : B64.rep 2.
Proof. change 2 with (inject_Z 2). apply rep_small_int. cbn. lia. Qed.

(** The rounded quotient by 10 is at least 2 exactly from the integer 20
    on. *)
Lemma tenth_ge_2 (n : Z) :
  B64.geb (B64.ofQ (inject_Z n / 10)) (B64.lit 2.0) = true <-> (20 <= n)%Z.
Proof.
  rewrite lit_2_0. unfold B64.geb. split.
  - intro G. destruct (Z_lt_le_dec n 20) as [L|L]; [exfalso|exact L].
    assert (Q19 : inject_Z n / 10 <= 19 / 10).
    { assert (n <= 19)%Z as L' by lia. rewrite Zle_Qle in L'.
      change (inject_Z 19) with 19 in L'. const_div. lra. }
    pose proof (rnd_mono _ _ Q19) as M.
    assert (R19 : B64.rnd (19 / 10) < 2) by (vm_compute; reflexivity).
    destruct (ofQ_cases (inject_Z n / 10)) as [[E _]|[[E [O _]]|[E _]]];
      rewrite E in G; cbn [B64.leb] in G.
    + apply Qle_bool_iff in G. lra.
    + pose proof huge_pos.
      assert (2 < B64.huge) by reflexivity. lra.
    + discriminate G.
  - intro L. rewrite Zle_Qle in L. change (inject_Z 20) with 20 in L.
    assert (Q20 : 2 <= inject_Z n / 10) by (const_div; lra).
    pose proof (rnd_ge_rep _ _ rep_2 Q20) as M.
    destruct (ofQ_cases (inject_Z n / 10)) as [[E _]|[[E _]|[E [O _]]]];
      rewrite E; cbn [B64.leb].
    + now apply Qle_bool_iff.
    + reflexivity.
    + exfalso. pose proof huge_pos. lra.
Qed.

Lemma round_ge_20 (p : Q) : (20 <= Qfloor (p + (1 # 2)))%Z <-> 19.5 <= p.
Proof.
  rewrite floor_ge. change (inject_Z 20) with 20. split; intro; lra.
Qed.

Lemma warns_from_19_5 (kp kd : B64.num) :
  dLabel (B64.getDeltaIndicator kp (Some kd)) = "WASPADA"
  <-> B64.geb (B64.mul (B64.abs (B64.sub kp kd)) (B64.lit 10)) (B64.Fin 19.5)
      = true.
Proof.
  rewrite (proj1 (getDeltaIndicator_label_on_binary64 kp kd)).
  destruct (B64.mul (B64.abs (B64.sub kp kd)) (B64.lit 10)) as [|[]|p] eqn:E.
  - unfold B64.deltaRounded. cbv zeta. rewrite E, lit_10, lit_2_0. cbn.
    split; discriminate.
  - unfold B64.deltaRounded. cbv zeta. rewrite E, lit_10, lit_2_0. cbn.
    split; discriminate.
  - unfold B64.deltaRounded. cbv zeta. rewrite E, lit_10, lit_2_0. cbn.
    split; reflexivity.
  - rewrite (deltaRounded_Fin kp kd p E), tenth_ge_2, round_ge_20.
    unfold B64.geb. cbn [B64.leb]. now rewrite Qle_bool_iff.
Qed.

(** C8.  On binary64 numbers, with a density estimate present, the delta of
    [getDeltaIndicator] is the binary64 quotient by 10 of the integer that
    [Math.round] makes of p, rounding half up, where p is the binary64
    product by 10 of the binary64 difference |karatFromPercent -
    karatFromDensity|; the flag is the warning one (the label WASPADA of
    the page) exactly when that delta is >= 2.0, and OK otherwise; a
    binary64 difference of exactly 2.0 gives the warning.  With a null
    density estimate the flag is OK and the delta text is empty. *)
Theorem delta_indicator_on_binary64 :
  (forall kp kd : B64.num,
      (forall p,
          B64.mul (B64.abs (B64.sub kp kd)) (B64.lit 10) = B64.Fin p ->
          exists n : Z,
            Spec.roundedHalfUp p n
            /\ B64.deltaRounded kp kd = B64.div (B64.Fin (inject_Z n)) (B64.lit 10))
      /\ delta (B64.getDeltaIndicator kp (Some kd))
         = B64.toFixed (B64.deltaRounded kp kd) 1 ++ "K"
      /\ (dLabel (B64.getDeltaIndicator kp (Some kd)) = "WASPADA"
          <-> B64.geb (B64.deltaRounded kp kd) (B64.lit 2.0) = true)
      /\ (dLabel (B64.getDeltaIndicator kp (Some kd)) = "OK"
          <-> B64.geb (B64.deltaRounded kp kd) (B64.lit 2.0) = false))
  /\ (forall (kp kd : B64.num) (d : Q),
         B64.abs (B64.sub kp kd) = B64.Fin d -> d == 2.0 ->
         dLabel (B64.getDeltaIndicator kp (Some kd)) = "WASPADA")
  /\ (forall kp,
         dLabel (B64.getDeltaIndicator kp None) = "OK"
         /\ delta (B64.getDeltaIndicator kp None) = "").
Proof.
  split; [|split].
  - intros kp kd. split; [|split; [|apply getDeltaIndicator_label_on_binary64]].
    + intros p E. exists (Qfloor (p + (1 # 2))).
      split; [apply roundedHalfUp_round|].
      unfold B64.deltaRounded. cbv zeta. now rewrite E.
    + unfold B64.getDeltaIndicator. cbv zeta.
      destruct (B64.geb (B64.deltaRounded kp kd) (B64.lit 2.0)); reflexivity.
  - intros kp kd d E D. apply warns_from_19_5. rewrite E, lit_10.
    unfold B64.mul.
    assert (P : d * 10 == 20) by (rewrite D; reflexivity).
    rewrite (ofQ_proper _ _ P). vm_compute. reflexivity.
  - intro kp. split; reflexivity.
Qed.

Lemma delta_indicator_on_binary64_at_two :
  B64.abs (B64.sub (B64.Fin 14) (B64.Fin 16)) = B64.Fin 2
  /\ dLabel (B64.getDeltaIndicator (B64.Fin 14) (Some (B64.Fin 16))) = "WASPADA".
Proof.
  assert (E : B64.abs (B64.sub (B64.Fin 14) (B64.Fin 16)) = B64.Fin 2)
    by (vm_compute; reflexivity).
  assert (D : 2 == 2.0) by reflexivity.
  split; [exact E|].
  exact (proj1 (proj2 delta_indicator_on_binary64) _ _ 2 E D).
Defined.

(** The binary64 number written 1.95 lies below 1.95, so that ten times it,
    rounded half up, is 19 and the formula gives 1.9 and no warning; its
    binary64 product by 10 is 19.5, and the page shows 2.0K and warns.  The
    weights 10.000625 and 9.000625, typed into the page, show a delta of
    5.3K where the formula on the two estimates of that calculation gives
    5.2. *)
Lemma delta_of_the_rounded_product :
  (exists kp,
      B64.lit 1.95 = B64.Fin kp
      /\ delta (B64.getDeltaIndicator (B64.Fin kp) (Some (B64.Fin 0))) = "2.0K"
      /\ dLabel (B64.getDeltaIndicator (B64.Fin kp) (Some (B64.Fin 0)))
         = "WASPADA"
      /\ (forall n : Z,
             Spec.roundedHalfUp (Qabs (kp - 0) * 10) n -> inject_Z n / 10 == 1.9)
      /\ delta (getDeltaIndicator kp (Some 0)) = "1.9K"
      /\ dLabel (getDeltaIndicator kp (Some 0)) = "OK")
  /\ (exists l kp kd,
         B64.calculatePurity_locals
           (B64.lit 10.000625) (B64.lit 9.000625) (B64.lit 20) = Done l
         /\ B64.Locals.karatFromPercentNum l = B64.Fin kp
         /\ B64.Locals.karatFromDensityNum l = Some (B64.Fin kd)
         /\ delta (B64.Locals.delta l) = "5.3K"
         /\ (forall n : Z,
                Spec.roundedHalfUp (Qabs (kp - kd) * 10) n ->
                inject_Z n / 10 == 5.2)).
Proof.
  split.
  - eexists. split; [vm_compute; reflexivity|].
    split; [vm_compute; reflexivity|]. split; [vm_compute; reflexivity|].
    split; [|split; vm_compute; reflexivity].
    intros n [A B].
    match type of A with ?v - _ < _ =>
      assert (L : 19 <= v) by (vm_compute; discriminate);
      assert (U : v < 19.5) by (vm_compute; reflexivity)
    end.
    assert (N : n = 19%Z).
    { assert (inject_Z 18 < inject_Z n) as N1
        by (change (inject_Z 18) with 18; lra).
      assert (inject_Z n < inject_Z 20) as N2
        by (change (inject_Z 20) with 20; lra).
      rewrite <- Zlt_Qlt in N1, N2. lia. }
    subst n. reflexivity.
  - eexists. eexists. eexists.
    split; [vm_compute; reflexivity|].
    split; [vm_compute; reflexivity|]. split; [vm_compute; reflexivity|].
    split; [vm_compute; reflexivity|].
    intros n [A B].
    match type of A with ?v - _ < _ =>
      assert (L : 52 <= v) by (vm_compute; discriminate);
      assert (U : v < 52.5) by (vm_compute; reflexivity)
    end.
    assert (N : n = 52%Z).
    { assert (inject_Z 51 < inject_Z n) as N1
        by (change (inject_Z 51) with 51; lra).
      assert (inject_Z n < inject_Z 53) as N2
        by (change (inject_Z 53) with 53; lra).
      rewrite <- Zlt_Qlt in N1, N2. lia. }
    subst n. reflexivity.
Qed.

(** X5.  On binary64 numbers the label is WASPADA exactly when the binary64
    product by 10 of the difference |karatFromPercent - karatFromDensity|
    is at least 19.5, for [Math.round] takes it to 20 or more from there
    on.  So a difference of 1.95 or more always warns and a difference of
    1.94 or less never does. *)
Theorem delta_flag_turns_at_19_5 :
  (forall kp kd : B64.num,
      dLabel (B64.getDeltaIndicator kp (Some kd)) = "WASPADA"
      <-> B64.geb (B64.mul (B64.abs (B64.sub kp kd)) (B64.lit 10)) (B64.Fin 19.5)
          = true)
  /\ (forall (kp kd : B64.num) (d : Q),
         B64.abs (B64.sub kp kd) = B64.Fin d ->
         (1.95 <= d -> dLabel (B64.getDeltaIndicator kp (Some kd)) = "WASPADA")
         /\ (d <= 1.94 -> dLabel (B64.getDeltaIndicator kp (Some kd)) = "OK")).
Proof.
  split; [exact warns_from_19_5|].
  intros kp kd d E.
  assert (R195 : B64.rep 19.5).
  { assert (E2 : 19.5 == inject_Z 39 / inject_Z (2 ^ 1)) by reflexivity.
    rewrite E2. apply rep_dyadic; [vm_compute; discriminate|lia]. }
  split; intro D.
  - apply warns_from_19_5. rewrite E, lit_10. unfold B64.mul.
    assert (P : 19.5 <= d * 10) by lra.
    pose proof (rnd_ge_rep _ _ R195 P) as M.
    unfold B64.geb.
    destruct (ofQ_cases (d * 10)) as [[F _]|[[F _]|[F [O _]]]];
      rewrite F; cbn [B64.leb].
    + now apply Qle_bool_iff.
    + reflexivity.
    + exfalso. pose proof huge_pos. lra.
  - destruct (B64.geb (B64.deltaRounded kp kd) (B64.lit 2.0)) eqn:G;
      [exfalso|now apply (proj2 (getDeltaIndicator_label_on_binary64 kp kd))].
    apply (proj1 (getDeltaIndicator_label_on_binary64 kp kd)) in G.
    apply warns_from_19_5 in G. rewrite E, lit_10 in G. unfold B64.mul in G.
    assert (P : d * 10 <= 19.4) by lra.
    pose proof (rnd_mono _ _ P) as M.
    assert (R : B64.rnd 19.4 < 19.5) by (vm_compute; reflexivity).
    unfold B64.geb in G.
    destruct (ofQ_cases (d * 10)) as [[F _]|[[F [O' _]]|[F _]]];
      rewrite F in G; cbn [B64.leb] in G.
    + apply Qle_bool_iff in G. lra.
    + pose proof huge_pos. assert (19.5 < B64.huge) by reflexivity. lra.
    + discriminate G.
Qed.

(** *** The width of the range *)

Lemma clampTo_le (x g : Q) : x <= g -> 0 <= g -> Spec.clampTo 0 24 x <= g.
Proof.
  intros X G. unfold Spec.clampTo.
  destruct (Qlt_le_dec x 0); [exact G|].
  destruct (Qlt_le_dec 24 x); lra.
Qed.

Lemma clampTo_ge (x g : Q) : g <= x -> g <= 24 -> g <= Spec.clampTo 0 24 x.
Proof.
  intros X G. unfold Spec.clampTo.
  destruct (Qlt_le_dec x 0); [lra|].
  destruct (Qlt_le_dec 24 x); lra.
Qed.

Lemma merged_fst_le (kp : Q) (kd : option Q) :
  fst (Spec64.merged kp kd) <= Spec.clampTo 0 24 (B64.rnd (kp - 1)).
Proof.
  destruct kd as [kd|]; cbn [Spec64.merged Spec64.padded fst snd];
    [apply Q.le_min_l|apply Qle_refl].
Qed.

Lemma merged_snd_ge (kp : Q) (kd : option Q) :
  Spec.clampTo 0 24 (B64.rnd (kp + 1)) <= snd (Spec64.merged kp kd).
Proof.
  destruct kd as [kd|]; cbn [Spec64.merged Spec64.padded fst snd];
    [apply Q.le_max_l|apply Qle_refl].
Qed.

(** X4.  On binary64 numbers, with a percent estimate between 0 and 24 the
    final range is at least 1 karat wide, and with a null density estimate
    it is at most 2.5 karats wide: the two sums k - 1 and k + 1 are rounded
    to the format before they are rounded to a multiple of 0.5. *)
Theorem final_range_width_on_binary64 (kp : Q) (kd : option Q) :
  0 <= kp <= 24 ->
  exists lo hi,
    B64.minK (B64.computeFinalRange (B64.Fin kp) (option_map B64.Fin kd))
    = B64.Fin lo
    /\ B64.maxK (B64.computeFinalRange (B64.Fin kp) (option_map B64.Fin kd))
       = B64.Fin hi
    /\ 1 <= hi - lo
    /\ (kd = None -> hi - lo <= 2.5).
Proof.
  intros [K0 K24].
  destruct (computeFinalRange_on_binary64 kp kd)
    as (lo0 & hi0 & lo & hi & Elo & Ehi & Vlo & Vhi & Mlo & Mhi & _).
  exists lo, hi. split; [exact Elo|]. split; [exact Ehi|].
  pose proof (merged_fst_le kp kd) as F. pose proof (merged_snd_ge kp kd) as S.
  rewrite <- Mlo in F. rewrite <- Mhi in S.
  split.
  - (* an integer m of [0, 23] with kp - 1 <= m <= kp *)
    assert (M : exists m : Z, (0 <= m <= 23)%Z
                              /\ kp - 1 <= inject_Z m /\ inject_Z m <= kp).
    { pose proof (Qfloor_le kp) as Fl. pose proof (Qlt_floor kp) as Fu.
      rewrite inject_Z_plus in Fu. change (inject_Z 1) with 1 in Fu.
      assert (F0 : (0 <= Qfloor kp)%Z)
        by (apply floor_ge; change (inject_Z 0) with 0; exact K0).
      destruct (Z_le_gt_dec (Qfloor kp) 23) as [L|G].
      - exists (Qfloor kp). split; [lia|]. split; lra.
      - exists 23%Z. split; [lia|]. change (inject_Z 23) with 23.
        assert (24 <= Qfloor kp)%Z as G' by lia.
        rewrite Zle_Qle in G'. change (inject_Z 24) with 24 in G'.
        split; lra. }
    destruct M as (m & [M0 M23] & Ml & Mu).
    assert (Rm : B64.rep (inject_Z m)) by (apply rep_small_int; lia).
    assert (Rm1 : B64.rep (inject_Z (m + 1))) by (apply rep_small_int; lia).
    assert (I0 : 0 <= inject_Z m)
      by (rewrite Zle_Qle in M0; exact M0).
    assert (I23 : inject_Z m <= 23)
      by (rewrite Zle_Qle in M23; exact M23).
    assert (I1 : inject_Z (m + 1) == inject_Z m + 1)
      by (rewrite inject_Z_plus; reflexivity).
    assert (A : lo0 <= inject_Z m).
    { apply Qle_trans with (1 := F). apply clampTo_le; [|exact I0].
      now apply rnd_le_rep. }
    assert (B : inject_Z (m + 1) <= hi0).
    { apply Qle_trans with (2 := S). apply clampTo_ge; [|lra].
      apply rnd_ge_rep; [exact Rm1|lra]. }
    apply roundHalf_mono in A. apply roundHalf_mono in B.
    rewrite roundHalf_int in A, B. lra.
  - intros ->. cbn [Spec64.merged Spec64.padded fst snd] in Mlo, Mhi.
    set (h := Qfloor (kp * 2)).
    pose proof (Qfloor_le (kp * 2)) as Fl. pose proof (Qlt_floor (kp * 2)) as Fu.
    fold h in Fl, Fu.
    rewrite inject_Z_plus in Fu. change (inject_Z 1) with 1 in Fu.
    assert (H0 : (0 <= h)%Z)
      by (apply floor_ge; change (inject_Z 0) with 0; lra).
    assert (H48 : (h <= 48)%Z).
    { assert (inject_Z h <= inject_Z 48) as L
        by (change (inject_Z 48) with 48; lra).
      now rewrite <- Zle_Qle in L. }
    assert (P53 : (1000 <= 2 ^ 53)%Z) by (vm_compute; discriminate).
    assert (Rup : B64.rep (inject_Z (h + 3) / 2)).
    { assert (E2 : inject_Z (h + 3) / 2 == inject_Z (h + 3) / inject_Z (2 ^ 1))
        by reflexivity.
      rewrite E2. apply rep_dyadic; lia. }
    assert (Rdn : B64.rep (inject_Z (h - 2) / 2)).
    { assert (E2 : inject_Z (h - 2) / 2 == inject_Z (h - 2) / inject_Z (2 ^ 1))
        by reflexivity.
      rewrite E2. apply rep_dyadic; lia. }
    assert (Iup : inject_Z (h + 3) / 2 == inject_Z h / 2 + (3 # 2))
      by (rewrite inject_Z_plus; change (inject_Z 3) with 3; field).
    assert (Idn : inject_Z (h - 2) / 2 == inject_Z h / 2 - 1).
    { replace (h - 2)%Z with (h + -2)%Z by lia.
      rewrite inject_Z_plus. change (inject_Z (-2)) with (-2). field. }
    assert (I0 : 0 <= inject_Z h) by (rewrite Zle_Qle in H0; exact H0).
    assert (I48 : inject_Z h <= 48) by (rewrite Zle_Qle in H48; exact H48).
    assert (A : hi0 <= inject_Z (h + 3) / 2).
    { rewrite Mhi. apply clampTo_le; [|rewrite Iup; const_div; lra].
      apply rnd_le_rep; [exact Rup|]. rewrite Iup. const_div. lra. }
    assert (B : inject_Z (h - 2) / 2 <= lo0).
    { rewrite Mlo. apply clampTo_ge; [|rewrite Idn; const_div; lra].
      apply rnd_ge_rep; [exact Rdn|]. rewrite Idn. const_div. lra. }
    apply roundHalf_mono in A. apply roundHalf_mono in B.
    rewrite roundHalf_half in A, B. rewrite Iup in A. rewrite Idn in B.
    const_div. lra.
Qed.

Lemma final_range_width_on_binary64_below_7_25 :
  0 <= Inputs.belowQuarter <= 24
  /\ exists lo hi,
      B64.minK (B64.computeFinalRange (B64.Fin Inputs.belowQuarter) None)
      = B64.Fin lo
      /\ B64.maxK (B64.computeFinalRange (B64.Fin Inputs.belowQuarter) None)
         = B64.Fin hi
      /\ 1 <= hi - lo
      /\ hi - lo <= 2.5.
Proof.
  assert (H : 0 <= Inputs.belowQuarter <= 24) by (split; vm_compute; discriminate).
  split; [exact H|].
  destruct (final_range_width_on_binary64 Inputs.belowQuarter None H)
    as (lo & hi & Elo & Ehi & W1 & W2).
  exists lo, hi. split; [exact Elo|]. split; [exact Ehi|].
  split; [exact W1|]. exact (W2 eq_refl).
Defined.
